(** * Placement-rule checker and rewriter (check.go, enable.go)

    A shallow embedding of the command-line programs of the repository:

    - [Check.main] (check.go): verifies that every placement rule belongs to
      the "tiflash" group and excludes the write role;
    - [Enable.main] (enable.go): performs the same verification and derives,
      for the rules of one keyspace, the rules of group "enable_s3_wn_region".

    A third program, found after the first one in src/enable.go, lists the
    group and [ID] of the rules to come ([ListIds.main]).

    Reading the file, decoding JSON and printing are outside the embedding:
    both programs are modelled from the decoded [Rules] value onwards, and
    their result is what they would print, or the value they panic with.

    Go slices are modelled as slice headers pointing into a store of backing
    arrays, because enable.go truncates a rule's [LabelConstraints] with
    [[:0]] and appends to it: the appended elements are written into the array
    the input rule still points to. *)

From Stdlib Require Import ZArith String Ascii.
From stdpp Require Import base option list gmap strings.

Local Open Scope string_scope.
Local Open Scope list_scope.

(** ** Data model (the type declarations shared by both files) *)

Definition LabelConstraintOp := string.

Definition In : LabelConstraintOp := "in".
Definition NotIn : LabelConstraintOp := "notIn".
Definition Exists : LabelConstraintOp := "exists".
Definition NotExists : LabelConstraintOp := "notExists".

Record LabelConstraint := mkLabelConstraint {
  Key : string;
  Op : LabelConstraintOp;
  Values : list string
}.

Definition PeerRoleType := string.

Definition Voter : PeerRoleType := "voter".
Definition Leader : PeerRoleType := "leader".
Definition Follower : PeerRoleType := "follower".
Definition Learner : PeerRoleType := "learner".

Record RuleGroup := mkRuleGroup {
  RuleGroup_ID : string;
  RuleGroup_Index : Z;
  RuleGroup_Override : bool
}.

(** *** Slices of label constraints

    A slice header is a pointer to a backing array, a length and a capacity.
    The nil slice and the empty slice of capacity 0 have no array of their
    own ([ptr = None]). *)

Definition loc := positive.

Record slice := mkSlice {
  ptr : option loc;
  len : nat;
  cap : nat
}.

Definition nil_slice : slice := {| ptr := None; len := 0; cap := 0 |}.

(** The store of backing arrays; an array is the list of its [cap] cells. *)
Abbreviation store := (gmap loc (list LabelConstraint)).

Record Rule := mkRule {
  GroupID : string;
  ID : string;
  Index : Z;
  Override : bool;
  StartKey : list ascii;
  StartKeyHex : string;
  EndKey : list ascii;
  EndKeyHex : string;
  Role : PeerRoleType;
  IsWitness : bool;
  Count : Z;
  LabelConstraints : slice;
  LocationLabels : list string;
  IsolationLevel : string;
  Version : Z;
  CreateTimestamp : Z;
  group : option RuleGroup
}.

Definition Rules := list Rule.

Definition LabelKeyEngineRole : string := "engine_role".
Definition LabelValueEngineRoleWrite : string := "write".

Global Instance LabelConstraint_eq_dec : EqDecision LabelConstraint.
Proof. solve_decision. Defined.
Global Instance slice_eq_dec : EqDecision slice.
Proof. solve_decision. Defined.
Global Instance RuleGroup_eq_dec : EqDecision RuleGroup.
Proof. solve_decision. Defined.
Global Instance Rule_eq_dec : EqDecision Rule.
Proof. solve_decision. Defined.

(** ** Go's slice operations on the store *)

(** The zero value of [LabelConstraint], found in freshly allocated cells. *)
Definition zero_constraint : LabelConstraint :=
  {| Key := ""; Op := ""; Values := [] |}.

(** The cells of the backing array of [s]. *)
Definition backing (h : store) (s : slice) : list LabelConstraint :=
  match ptr s with
  | Some p => default [] (h !! p)
  | None => []
  end.

(** What [range s] iterates over: the first [len s] cells. *)
Definition elems (h : store) (s : slice) : list LabelConstraint :=
  take (len s) (backing h s).

(** [s[:0]]: same array, same capacity, length 0. *)
Definition reslice0 (s : slice) : slice :=
  {| ptr := ptr s; len := 0; cap := cap s |}.

(** The capacity [append] chooses when the array is full: the needed length
    when that exceeds twice the old capacity, twice the old capacity
    otherwise (the rule of the Go runtime for short slices). *)
Definition growcap (old needed : nat) : nat :=
  if decide (old + old < needed) then needed else old + old.

(** The reallocating branch of [append]: a new array of capacity
    [growcap (cap s) (len s + 1)] at an unused address, holding the elements
    of [s], then [v], then zero values. *)
Definition growslice (h : store) (s : slice) (v : LabelConstraint) : store * slice :=
  let q : loc := fresh (dom h) in
  let c := growcap (cap s) (S (len s)) in
  (<[q := elems h s ++ v :: replicate (c - S (len s)) zero_constraint]> h,
   {| ptr := Some q; len := S (len s); cap := c |}).

(** [append(s, v)]: when the capacity allows, [v] is stored in place in cell
    [len s] of the array of [s], which every other slice of that array sees;
    otherwise the slice is reallocated. *)
Definition append (h : store) (s : slice) (v : LabelConstraint) : store * slice :=
  match ptr s with
  | Some p =>
      if decide (len s < cap s) then
        (alter (fun a => <[len s := v]> a) p h,
         {| ptr := Some p; len := S (len s); cap := cap s |})
      else growslice h s v
  | None => growslice h s v
  end.

(** ** Panics

    [panic("...")] carries a fixed message; [panic(fmt.Sprintf("...: %v",
    rule))] carries the format and the rule it was formatted from. *)
Inductive panic_value :=
  | Panic (msg : string)
  | Panicf (format : string) (rule : Rule).

Global Instance panic_value_eq_dec : EqDecision panic_value.
Proof. solve_decision. Defined.

(** ** Field assignments on a [Rule] value *)

Definition set_GroupID (g : string) (r : Rule) : Rule :=
  mkRule g (ID r) (Index r) (Override r) (StartKey r) (StartKeyHex r)
    (EndKey r) (EndKeyHex r) (Role r) (IsWitness r) (Count r)
    (LabelConstraints r) (LocationLabels r) (IsolationLevel r) (Version r)
    (CreateTimestamp r) (group r).

Definition set_Index (i : Z) (r : Rule) : Rule :=
  mkRule (GroupID r) (ID r) i (Override r) (StartKey r) (StartKeyHex r)
    (EndKey r) (EndKeyHex r) (Role r) (IsWitness r) (Count r)
    (LabelConstraints r) (LocationLabels r) (IsolationLevel r) (Version r)
    (CreateTimestamp r) (group r).

Definition set_Count (c : Z) (r : Rule) : Rule :=
  mkRule (GroupID r) (ID r) (Index r) (Override r) (StartKey r) (StartKeyHex r)
    (EndKey r) (EndKeyHex r) (Role r) (IsWitness r) c
    (LabelConstraints r) (LocationLabels r) (IsolationLevel r) (Version r)
    (CreateTimestamp r) (group r).

Definition set_LabelConstraints (s : slice) (r : Rule) : Rule :=
  mkRule (GroupID r) (ID r) (Index r) (Override r) (StartKey r) (StartKeyHex r)
    (EndKey r) (EndKeyHex r) (Role r) (IsWitness r) (Count r)
    s (LocationLabels r) (IsolationLevel r) (Version r)
    (CreateTimestamp r) (group r).

(** ** [strings.Contains]

    [Contains s substr] holds when [substr] occurs in [s] at some position:
    it is a prefix of [s] or occurs in the tail of [s]. *)
Fixpoint Contains (s substr : string) : bool :=
  String.prefix substr s ||
  match s with
  | EmptyString => false
  | String _ s' => Contains s' substr
  end.

(** ** check.go *)
Module Check.

(** The condition of the inner [if] (check.go:94): evaluated left to right,
    [con.Values[0]] is only read when the length is 1. *)
Definition malformed (con : LabelConstraint) : bool :=
  bool_decide (Op con ≠ NotIn)
  || bool_decide (length (Values con) ≠ 1)
  || bool_decide (Values con !! 0 ≠ Some LabelValueEngineRoleWrite).

(** The loop over [rule.LabelConstraints] (check.go:92-100): the result is
    the panic raised, or the final value of [alreadyDisableWriteRole]. *)
Fixpoint scan (rule : Rule) (cons : list LabelConstraint) : panic_value + bool :=
  match cons with
  | [] => inr false
  | con :: rest =>
      if decide (Key con = LabelKeyEngineRole) then
        if malformed con then inl (Panicf "invalid rule: %v" rule)
        else inr true
      else scan rule rest
  end.

(** The body of the loop over [curRules] (check.go:88-103). *)
Definition body (h : store) (rule : Rule) : option panic_value :=
  if decide (GroupID rule ≠ "tiflash") then
    Some (Panic "got rule that are not tiflash group")
  else
    match scan rule (elems h (LabelConstraints rule)) with
    | inl p => Some p
    | inr alreadyDisableWriteRole =>
        if negb alreadyDisableWriteRole then
          Some (Panicf "this rule doesn't disable wn, ignore: %v" rule)
        else None
    end.

Fixpoint loop (h : store) (curRules : Rules) : option panic_value :=
  match curRules with
  | [] => None
  | rule :: rest =>
      match body h rule with
      | Some p => Some p
      | None => loop h rest
      end
  end.

(** [main] from the decoded rules on: the panic value, or the line printed. *)
Definition main (h : store) (curRules : Rules) : panic_value + string :=
  match loop h curRules with
  | Some p => inl p
  | None => inr "check done, all rules has engine_role constraints"
  end.

End Check.

(** ** enable.go *)
Module Enable.

Definition keyspacePrefix1 (keyspace : string) : string :=
  "keyspace-" +:+ keyspace +:+ "-".
Definition keyspacePrefix2 (keyspace : string) : string :=
  "keyspace-id-" +:+ keyspace +:+ "-".

Definition tiflashConstraint : LabelConstraint :=
  {| Key := "engine"; Op := In; Values := ["tiflash"] |}.
Definition wnConstraint : LabelConstraint :=
  {| Key := "engine_role"; Op := In; Values := ["write"] |}.

(** The condition of the inner [if] (enable.go:110). *)
Definition malformed (con : LabelConstraint) : bool :=
  bool_decide (Op con ≠ NotIn)
  || bool_decide (length (Values con) ≠ 1)
  || bool_decide (Values con !! 0 ≠ Some LabelValueEngineRoleWrite).

(** The loop over [rule.LabelConstraints] (enable.go:108-116). *)
Fixpoint scan (rule : Rule) (cons : list LabelConstraint) : panic_value + bool :=
  match cons with
  | [] => inr false
  | con :: rest =>
      if decide (Key con = LabelKeyEngineRole) then
        if malformed con then inl (Panicf "invalid rule: %v" rule)
        else inr true
      else scan rule rest
  end.

(** The rules that are not skipped by the [continue] of enable.go:120-122:
    those whose [ID] contains one of the two patterns. *)
Definition in_keyspace (keyspace : string) (rule : Rule) : bool :=
  Contains (ID rule) (keyspacePrefix1 keyspace)
  || Contains (ID rule) (keyspacePrefix2 keyspace).

(** The assignments to the loop variable [rule] (enable.go:124-129). [rule]
    is a copy of the element of [curRules], but its [LabelConstraints] header
    still points to the element's backing array, which [[:0]] keeps and the
    two [append]s write into. *)
Definition rewrite (h : store) (rule : Rule) : store * Rule :=
  let rule := set_GroupID "enable_s3_wn_region" rule in
  let rule := set_Index 1 rule in
  let rule := set_Count 1 rule in
  let rule := set_LabelConstraints (reslice0 (LabelConstraints rule)) rule in
  let '(h, s) := append h (LabelConstraints rule) wnConstraint in
  let rule := set_LabelConstraints s rule in
  let '(h, s) := append h (LabelConstraints rule) tiflashConstraint in
  let rule := set_LabelConstraints s rule in
  (h, rule).

(** The body of the loop over [curRules] (enable.go:104-130): a panic, or
    [None] after [continue], or the rule appended to [newRules]. *)
Definition body (keyspace : string) (h : store) (rule : Rule)
  : store * (panic_value + option Rule) :=
  if decide (GroupID rule ≠ "tiflash") then
    (h, inl (Panic "got rule that are not tiflash group"))
  else
    match scan rule (elems h (LabelConstraints rule)) with
    | inl p => (h, inl p)
    | inr alreadyDisableWriteRole =>
        if negb alreadyDisableWriteRole then
          (h, inl (Panicf "rule should have engine_role constraints: %v" rule))
        else if negb (Contains (ID rule) (keyspacePrefix1 keyspace))
                && negb (Contains (ID rule) (keyspacePrefix2 keyspace)) then
          (h, inr None)
        else
          let '(h, rule) := rewrite h rule in
          (h, inr (Some rule))
    end.

(** The loop over [curRules] (enable.go:103-131), with the store and
    [newRules] as its state. *)
Fixpoint loop (keyspace : string) (h : store) (curRules newRules : Rules)
  : store * (panic_value + Rules) :=
  match curRules with
  | [] => (h, inr newRules)
  | rule :: rest =>
      match body keyspace h rule with
      | (h, inl p) => (h, inl p)
      | (h, inr None) => loop keyspace h rest newRules
      | (h, inr (Some rule)) => loop keyspace h rest (newRules ++ [rule])
      end
  end.

(** [main] from the decoded rules on: the final store with the panic value,
    or with the rules that are marshalled and printed. *)
Definition main (keyspace : string) (h : store) (curRules : Rules)
  : store * (panic_value + Rules) :=
  loop keyspace h curRules [].

End Enable.

(** ** The second program of src/enable.go (lines 138-236)

    A separate [package main] with the same type declarations: for every
    input rule it emits a rule that carries only the new group and the
    rule's [ID], without looking at anything else. *)
Module ListIds.

(** [var newRule Rule]: the zero value of [Rule]. *)
Definition zero_Rule : Rule :=
  {| GroupID := ""; ID := ""; Index := 0; Override := false;
     StartKey := []; StartKeyHex := ""; EndKey := []; EndKeyHex := "";
     Role := ""; IsWitness := false; Count := 0;
     LabelConstraints := nil_slice; LocationLabels := [];
     IsolationLevel := ""; Version := 0; CreateTimestamp := 0;
     group := None |}.

Definition set_ID (id : string) (r : Rule) : Rule :=
  mkRule (GroupID r) id (Index r) (Override r) (StartKey r) (StartKeyHex r)
    (EndKey r) (EndKeyHex r) (Role r) (IsWitness r) (Count r)
    (LabelConstraints r) (LocationLabels r) (IsolationLevel r) (Version r)
    (CreateTimestamp r) (group r).

(** The body of the loop (lines 226-229 of src/enable.go): the rule
    appended to [newRules]. *)
Definition body (rule : Rule) : Rule :=
  let newRule := zero_Rule in
  let newRule := set_GroupID "enable_s3_wn_region" newRule in
  let newRule := set_ID (ID rule) newRule in
  newRule.

Fixpoint loop (curRules newRules : Rules) : Rules :=
  match curRules with
  | [] => newRules
  | rule :: rest => loop rest (newRules ++ [body rule])
  end.

(** [main] from the decoded rules on: the rules that are marshalled and
    printed. No statement of the loop can panic. *)
Definition main (curRules : Rules) : Rules := loop curRules [].

End ListIds.

(** What identifies a placement rule: its group and its [ID]. *)
Definition rule_key (r : Rule) : string * string := (GroupID r, ID r).

(** ** Notions used in the statements *)

(** The checks of [Enable.body] (enable.go:104-119) on their own: the panic
    raised by the rule, if any. *)
Definition Enable_checks (h : store) (rule : Rule) : option panic_value :=
  if decide (GroupID rule ≠ "tiflash") then
    Some (Panic "got rule that are not tiflash group")
  else
    match Enable.scan rule (elems h (LabelConstraints rule)) with
    | inl p => Some p
    | inr alreadyDisableWriteRole =>
        if negb alreadyDisableWriteRole then
          Some (Panicf "rule should have engine_role constraints: %v" rule)
        else None
    end.

(** The lookup of section 4.1 of the specification, in its words: "pure
    lookup, first match wins"; absence is [None]. *)
Fixpoint FindConstraint (constraints : list LabelConstraint) (key : string)
  : option LabelConstraint :=
  match constraints with
  | [] => None
  | c :: rest => if decide (Key c = key) then Some c else FindConstraint rest key
  end.

(** The exclusion constraint the checks look for: [NotIn] with the single
    value "write". *)
Definition excludes_write (c : LabelConstraint) : Prop :=
  Op c = NotIn ∧ Values c = [LabelValueEngineRoleWrite].

Global Instance excludes_write_dec c : Decision (excludes_write c).
Proof. unfold excludes_write. apply _. Defined.

(** A slice header is valid in a store when its array is allocated with
    [cap] cells, of which the slice uses at most [cap]. *)
Definition slice_ok (h : store) (s : slice) : Prop :=
  (len s ≤ cap s)%nat ∧
  match ptr s with
  | Some p => ∃ a, h !! p = Some a ∧ length a = cap s
  | None => cap s = 0
  end.

(** The state [json.Unmarshal] leaves: every rule's [LabelConstraints] is a
    valid slice, and no two rules share a backing array. *)
Definition decoded (h : store) (rules : Rules) : Prop :=
  Forall (λ r, slice_ok h (LabelConstraints r)) rules ∧
  NoDup (omap (λ r, ptr (LabelConstraints r)) rules).

Global Instance slice_ok_dec h s : Decision (slice_ok h s).
Proof.
  unfold slice_ok. destruct (ptr s) as [p|]; [|apply _].
  destruct (h !! p) as [a|].
  - destruct (decide ((len s ≤ cap s)%nat ∧ length a = cap s)) as [Hy|Hn].
    + left. destruct Hy. eauto.
    + right. intros (? & a' & [= <-] & ?). tauto.
  - right. intros (_ & a' & [=] & _).
Defined.

Global Instance decoded_dec h rules : Decision (decoded h rules).
Proof. unfold decoded. apply _. Defined.

(** The rule value [Enable.rewrite] derives from [r], given the header [s] of
    its new [LabelConstraints]. *)
Definition derived (r : Rule) (s : slice) : Rule :=
  set_LabelConstraints s
    (set_Count 1 (set_Index 1 (set_GroupID "enable_s3_wn_region" r))).

(** A backing array after the two [append]s of [Enable.rewrite] wrote into
    it: its first two cells, as far as they exist, hold the new constraints. *)
Definition overwritten (a : list LabelConstraint) : list LabelConstraint :=
  take (length a) [Enable.wnConstraint; Enable.tiflashConstraint] ++ drop 2 a.


(** ** Sample inputs *)
Module Sample.

Definition exclusion : LabelConstraint :=
  {| Key := "engine_role"; Op := "notIn"; Values := ["write"] |}.
Definition engine : LabelConstraint :=
  {| Key := "engine"; Op := "in"; Values := ["tiflash"] |}.
(** An "engine_role" constraint with the wrong operator. *)
Definition inclusion : LabelConstraint :=
  {| Key := "engine_role"; Op := "in"; Values := ["write"] |}.
Definition new_role : LabelConstraint :=
  {| Key := "engine_role"; Op := "in"; Values := ["write"] |}.
Definition new_engine : LabelConstraint :=
  {| Key := "engine"; Op := "in"; Values := ["tiflash"] |}.

Definition rule (g id : string) (s : slice) : Rule :=
  {| GroupID := g; ID := id; Index := 0; Override := false;
     StartKey := []; StartKeyHex := "7800"; EndKey := []; EndKeyHex := "7801";
     Role := Learner; IsWitness := false; Count := 3;
     LabelConstraints := s; LocationLabels := ["zone"];
     IsolationLevel := "zone"; Version := 0; CreateTimestamp := 0;
     group := None |}.

(** The scenario of the specification: one rule of keyspace "ks1" with the
    exclusion constraint, decoded into an array of capacity 1. *)
Definition store1 : store := {[ 1%positive := [exclusion] ]}.
Definition r1 : Rule :=
  rule "tiflash" "keyspace-ks1-r1" {| ptr := Some 1%positive; len := 1; cap := 1 |}.
Definition store1' : store :=
  <[ 2%positive := [new_role; new_engine] ]> {[ 1%positive := [new_role] ]}.
Definition r1' : Rule :=
  derived r1 {| ptr := Some 2%positive; len := 2; cap := 2 |}.

(** Three rules: keyspace "ks1" (two constraints in an array of capacity 4),
    keyspace "ks2", and keyspace "ks1" again through the "keyspace-id-"
    pattern. *)
Definition store3 : store :=
  <[ 1%positive := [engine; exclusion; zero_constraint; zero_constraint] ]>
  (<[ 2%positive := [exclusion] ]>
  {[ 3%positive := [exclusion; engine] ]}).
Definition ra : Rule :=
  rule "tiflash" "keyspace-ks1-r1" {| ptr := Some 1%positive; len := 2; cap := 4 |}.
Definition rb : Rule :=
  rule "tiflash" "keyspace-ks2-r1" {| ptr := Some 2%positive; len := 1; cap := 1 |}.
Definition rc : Rule :=
  rule "tiflash" "xx-keyspace-id-ks1-r9" {| ptr := Some 3%positive; len := 2; cap := 2 |}.
Definition rules3 : Rules := [ra; rb; rc].
Definition store3' : store :=
  <[ 1%positive := [new_role; new_engine; zero_constraint; zero_constraint] ]>
  (<[ 2%positive := [exclusion] ]>
  {[ 3%positive := [new_role; new_engine] ]}).
Definition out3 : Rules :=
  [derived ra {| ptr := Some 1%positive; len := 2; cap := 4 |};
   derived rc {| ptr := Some 3%positive; len := 2; cap := 2 |}].

(** A rule of another group, a rule without constraints, and a rule whose
    first "engine_role" constraint is malformed while a later one is not. *)
Definition r_other : Rule :=
  rule "other" "keyspace-ks1-r2" {| ptr := Some 2%positive; len := 1; cap := 1 |}.
Definition r_bare : Rule := rule "tiflash" "keyspace-ks2-r3" nil_slice.
Definition store_dup : store := {[ 1%positive := [inclusion; exclusion] ]}.
Definition r_dup : Rule :=
  rule "tiflash" "keyspace-ks1-r4" {| ptr := Some 1%positive; len := 2; cap := 2 |}.
(** The converse: a well-formed first constraint, a malformed later one. *)
Definition store_dup2 : store := {[ 1%positive := [engine; exclusion; inclusion] ]}.
Definition r_dup2 : Rule :=
  rule "tiflash" "keyspace-ks1-r5" {| ptr := Some 1%positive; len := 3; cap := 3 |}.

(** The store after a run for keyspace "ks1" that rewrote [ra] and then
    panicked. *)
Definition store3_partial : store :=
  <[ 1%positive := [new_role; new_engine; zero_constraint; zero_constraint] ]>
  (<[ 2%positive := [exclusion] ]>
  {[ 3%positive := [exclusion; engine] ]}).

End Sample.

(** Closed facts about the sample inputs are settled by evaluation. *)
Ltac by_evaluation := apply (bool_decide_unpack _); vm_compute; exact I.

(** * Properties *)

(** ** [strings.Contains] finds occurrences anywhere in the string *)







(** ** The two programs run the same checks *)

Lemma malformed_same con : Enable.malformed con = Check.malformed con.
Proof. reflexivity. Qed.

Lemma scan_same rule cons : Enable.scan rule cons = Check.scan rule cons.
Proof. induction cons as [|c cons IH]; simpl; [done | by rewrite IH]. Qed.

Lemma malformed_false_iff con : Check.malformed con = false ↔ excludes_write con.
Proof.
  unfold Check.malformed, excludes_write.
  rewrite !orb_false_iff, !bool_decide_eq_false.
  destruct (Values con) as [|v [|w vs]]; simpl; split.
  - intros [[_ H] _]. by destruct H.
  - intros [_ ?]; done.
  - intros [[H1 _] H3]. split.
    + by destruct (decide (Op con = NotIn)).
    + f_equal. destruct (decide (v = LabelValueEngineRoleWrite)) as [|Hne]; [done|].
      destruct H3. congruence.
  - intros [-> [= ->]]. split_and!; intros H; by apply H.
  - intros [[_ H] _]. by destruct H.
  - intros [_ ?]; done.
Qed.

(** [Check.scan] is the lookup followed by the test of what it found. *)
Lemma scan_FindConstraint rule cons :
  Check.scan rule cons =
  match FindConstraint cons LabelKeyEngineRole with
  | None => inr false
  | Some c =>
      if decide (excludes_write c) then inr true
      else inl (Panicf "invalid rule: %v" rule)
  end.
Proof.
  induction cons as [|c cons IH]; simpl; [done|].
  destruct (decide (Key c = LabelKeyEngineRole)); [|done].
  destruct (Check.malformed c) eqn:Hm, (decide (excludes_write c)) as [He|He];
    try done.
  - apply malformed_false_iff in He. congruence.
  - apply malformed_false_iff in Hm. done.
Qed.

Lemma Enable_scan_FindConstraint rule cons :
  Enable.scan rule cons =
  match FindConstraint cons LabelKeyEngineRole with
  | None => inr false
  | Some c =>
      if decide (excludes_write c) then inr true
      else inl (Panicf "invalid rule: %v" rule)
  end.
Proof. etrans; [apply scan_same | apply scan_FindConstraint]. Qed.

Lemma Enable_body_eq ks h r :
  Enable.body ks h r =
  match Enable_checks h r with
  | Some p => (h, inl p)
  | None =>
      if Enable.in_keyspace ks r then
        let '(h, r) := Enable.rewrite h r in (h, inr (Some r))
      else (h, inr None)
  end.
Proof.
  unfold Enable.body, Enable_checks.
  destruct (decide (GroupID r ≠ "tiflash")); [done|].
  destruct (Enable.scan r _) as [p|[|]]; simpl; try done.
  rewrite <- negb_orb. fold (Enable.in_keyspace ks r).
  by destruct (Enable.in_keyspace ks r).
Qed.

(** The checks of the two bodies fail together. *)
Lemma checks_None_iff h r : Enable_checks h r = None ↔ Check.body h r = None.
Proof.
  unfold Enable_checks, Check.body. rewrite scan_same.
  destruct (decide (GroupID r ≠ "tiflash")); [done|].
  by destruct (Check.scan r _) as [p|[|]].
Qed.


(** ** The effect of [append] and [Enable.rewrite] on the store *)

Local Arguments append : simpl never.
Local Arguments growslice : simpl never.

Lemma fresh_unallocated (h : store) : h !! (fresh (dom h) : loc) = None.
Proof. apply not_elem_of_dom, is_fresh. Qed.

Lemma growcap_0_1 : growcap 0 1 = 1%nat.
Proof. reflexivity. Qed.

Lemma growcap_1_2 : growcap 1 2 = 2%nat.
Proof. reflexivity. Qed.

Lemma overwritten_two x y a :
  overwritten (x :: y :: a) = Enable.wnConstraint :: Enable.tiflashConstraint :: a.
Proof. unfold overwritten. simpl. by rewrite take_nil. Qed.

Lemma append_grow h s v :
  (cap s ≤ len s)%nat → append h s v = growslice h s v.
Proof.
  intros Hle. unfold append. destruct (ptr s); [|done].
  destruct (decide (len s < cap s)%nat); [lia | done].
Qed.

Lemma append_in_place h s v p :
  ptr s = Some p → (len s < cap s)%nat →
  append h s v =
  (alter (λ a, <[len s := v]> a) p h,
   {| ptr := Some p; len := S (len s); cap := cap s |}).
Proof.
  intros Hp Hlt. unfold append. rewrite Hp.
  by destruct (decide (len s < cap s)%nat).
Qed.

Lemma rewrite_derived h r h' r' :
  Enable.rewrite h r = (h', r') → r' = derived r (LabelConstraints r').
Proof.
  unfold Enable.rewrite. simpl.
  destruct (append h _ _) as [h1 s1]. simpl.
  destruct (append h1 _ _) as [h2 s2]. by intros [= <- <-].
Qed.

Lemma rewrite_store h r h' r' :
  slice_ok h (LabelConstraints r) →
  Enable.rewrite h r = (h', r') →
  elems h' (LabelConstraints r') = [Enable.wnConstraint; Enable.tiflashConstraint]
  ∧ slice_ok h' (LabelConstraints r')
  ∧ (ptr (LabelConstraints r') = ptr (LabelConstraints r)
     ∨ ∃ q, ptr (LabelConstraints r') = Some q ∧ h !! q = None)
  ∧ (∀ p a, h !! p = Some a →
       h' !! p = Some (if decide (ptr (LabelConstraints r) = Some p)
                       then overwritten a else a)).
Proof.
  intros [Hlen Harr]. unfold Enable.rewrite. simpl.
  destruct (LabelConstraints r) as [op l c] eqn:Hs. simpl in *.
  unfold reslice0. simpl.
  destruct (append h _ _) as [h1 s1] eqn:E1. simpl.
  destruct (append h1 _ _) as [h2 s2] eqn:E2. simpl.
  intros [= <- <-]. simpl.
  destruct c as [|[|c]].
  - (* capacity 0: both appends allocate *)
    rewrite append_grow in E1 by (simpl; lia).
    unfold growslice in E1. simpl in E1. rewrite growcap_0_1 in E1.
    injection E1 as <- <-.
    rewrite append_grow in E2 by (simpl; lia).
    unfold growslice, elems, backing in E2. simpl in E2.
    rewrite lookup_insert_eq, growcap_1_2 in E2. simpl in E2.
    injection E2 as <- <-.
    set (q1 := fresh (dom h) : loc).
    assert (Hq1 : h !! q1 = None) by apply fresh_unallocated.
    set (h1 := <[q1 := _]> h).
    set (q2 := fresh (dom h1) : loc).
    assert (Hq2 : h1 !! q2 = None) by apply fresh_unallocated.
    assert (Hq2' : h !! q2 = None).
    { subst h1. apply lookup_insert_None in Hq2. tauto. }
    split_and!.
    + unfold elems, backing. simpl. by rewrite lookup_insert_eq.
    + split; simpl; [done|]. rewrite lookup_insert_eq. by eexists.
    + right. eauto.
    + intros p a Ha.
      rewrite lookup_insert_ne by congruence.
      subst h1. rewrite lookup_insert_ne by congruence.
      rewrite Ha. f_equal. case_decide as Hd; [|done].
      subst op. destruct Harr as (a' & Ha' & Hl).
      assert (a' = a) by congruence. subst. by destruct a.
  - (* capacity 1: the first append is in place, the second allocates *)
    destruct op as [p0|]; [|lia]. destruct Harr as (a0 & Ha0 & Hl0).
    destruct a0 as [|x [|??]]; try done.
    rewrite (append_in_place _ _ _ p0) in E1 by (simpl; done || lia).
    simpl in E1. injection E1 as <- <-.
    set (h1 := alter _ p0 h) in *.
    assert (Hp0 : h1 !! p0 = Some [Enable.wnConstraint]).
    { subst h1. by rewrite lookup_alter_eq, Ha0. }
    rewrite append_grow in E2 by (simpl; lia).
    unfold growslice, elems, backing in E2. simpl in E2.
    rewrite Hp0, growcap_1_2 in E2. simpl in E2. injection E2 as <- <-.
    set (q2 := fresh (dom h1) : loc).
    assert (Hq2 : h1 !! q2 = None) by apply fresh_unallocated.
    assert (Hq2' : h !! q2 = None).
    { subst h1. by apply lookup_alter_None in Hq2. }
    split_and!.
    + unfold elems, backing. simpl. by rewrite lookup_insert_eq.
    + split; simpl; [done|]. rewrite lookup_insert_eq. by eexists.
    + right. eauto.
    + intros p a Ha. rewrite lookup_insert_ne by congruence.
      case_decide as Hd.
      * injection Hd as ->. rewrite Hp0.
        assert (a = [x]) by congruence. by subst.
      * subst h1. rewrite lookup_alter_ne by congruence. done.
  - (* capacity 2 or more: both appends are in place *)
    destruct op as [p0|]; [|lia]. destruct Harr as (a0 & Ha0 & Hl0).
    destruct a0 as [|x [|y a0]]; try done.
    rewrite (append_in_place _ _ _ p0) in E1 by (simpl; done || lia).
    simpl in E1. injection E1 as <- <-.
    rewrite (append_in_place _ _ _ p0) in E2 by (simpl; done || lia).
    simpl in E2. injection E2 as <- <-.
    assert (Hp0 : alter (λ a, <[1%nat:=Enable.tiflashConstraint]> a) p0
              (alter (λ a, <[0%nat:=Enable.wnConstraint]> a) p0 h) !! p0
            = Some (Enable.wnConstraint :: Enable.tiflashConstraint :: a0)).
    { by rewrite !lookup_alter_eq, Ha0. }
    split_and!.
    + unfold elems, backing. simpl. by rewrite Hp0.
    + split; simpl; [lia|]. rewrite Hp0. eexists; split; [done|].
      simpl in *. lia.
    + by left.
    + intros p a Ha. case_decide as Hd.
      * injection Hd as ->. rewrite Hp0.
        assert (a = x :: y :: a0) by congruence. subst.
        by rewrite overwritten_two.
      * rewrite !lookup_alter_ne by congruence. done.
Qed.

Lemma overwritten_length a : length (overwritten a) = length a.
Proof. by destruct a as [|x [|y a]]; [..|rewrite overwritten_two]. Qed.

(** ** One iteration of the loop of [Enable.main] *)

Section Run.
Context (ks : string).

Lemma body_cases h r h1 res :
  Enable.body ks h r = (h1, res) →
  match res with
  | inl p => Enable_checks h r = Some p ∧ h1 = h
  | inr None =>
      Enable_checks h r = None ∧ Enable.in_keyspace ks r = false ∧ h1 = h
  | inr (Some r') =>
      Enable_checks h r = None ∧ Enable.in_keyspace ks r = true
      ∧ Enable.rewrite h r = (h1, r')
  end.
Proof.
  rewrite Enable_body_eq. destruct (Enable_checks h r) as [p|].
  { by intros [= <- <-]. }
  destruct (Enable.in_keyspace ks r).
  - destruct (Enable.rewrite h r) as [h2 r2]. by intros [= <- <-].
  - by intros [= <- <-].
Qed.

Lemma checks_None_group h r : Enable_checks h r = None → GroupID r = "tiflash".
Proof.
  unfold Enable_checks. destruct (decide (GroupID r ≠ "tiflash")) as [|Hn]; [done|].
  intros _. by destruct (decide (GroupID r = "tiflash")).
Qed.

Lemma checks_elems h1 h r :
  elems h1 (LabelConstraints r) = elems h (LabelConstraints r) →
  Enable_checks h1 r = Enable_checks h r.
Proof. unfold Enable_checks. by intros ->. Qed.

Lemma Check_body_elems h1 h r :
  elems h1 (LabelConstraints r) = elems h (LabelConstraints r) →
  Check.body h1 r = Check.body h r.
Proof. unfold Check.body. by intros ->. Qed.

(** What one iteration does to the arrays that were allocated before it:
    only the array of a rewritten rule changes. *)
Lemma body_store h r h1 res :
  slice_ok h (LabelConstraints r) →
  Enable.body ks h r = (h1, res) →
  ∀ p a, h !! p = Some a →
    h1 !! p = Some (if decide (ptr (LabelConstraints r) = Some p
                               ∧ Enable_checks h r = None
                               ∧ Enable.in_keyspace ks r = true)
                    then overwritten a else a).
Proof.
  intros Hok Hb p a Ha. apply body_cases in Hb.
  destruct res as [e|[r'|]].
  - destruct Hb as [He ->]. rewrite Ha. f_equal.
    case_decide as Hd; [|done]. destruct Hd as (_ & ? & _). congruence.
  - destruct Hb as (He & Hin & Hrw).
    destruct (rewrite_store _ _ _ _ Hok Hrw) as (_ & _ & _ & Hst).
    rewrite (Hst _ _ Ha). f_equal. repeat case_decide; tauto.
  - destruct Hb as (He & Hin & ->). rewrite Ha. f_equal.
    case_decide as Hd; [|done]. destruct Hd as (_ & _ & ?). congruence.
Qed.

Lemma slice_ok_step (h h1 : store) s :
  (∀ p a, h !! p = Some a → ∃ a1, h1 !! p = Some a1 ∧ length a1 = length a) →
  slice_ok h s → slice_ok h1 s.
Proof.
  intros Hst [Hlen Harr]. split; [done|].
  destruct (ptr s) as [p|]; [|done].
  destruct Harr as (a & Ha & Hl). destruct (Hst _ _ Ha) as (a1 & Ha1 & Hl1).
  exists a1. split; [done | congruence].
Qed.

Lemma body_keeps_arrays h r h1 res :
  slice_ok h (LabelConstraints r) →
  Enable.body ks h r = (h1, res) →
  ∀ p a, h !! p = Some a → ∃ a1, h1 !! p = Some a1 ∧ length a1 = length a.
Proof.
  intros Hok Hb p a Ha. rewrite (body_store _ _ _ _ Hok Hb _ _ Ha).
  case_decide; eexists; split; try done. apply overwritten_length.
Qed.

Lemma decoded_cons h r rest :
  decoded h (r :: rest) →
  slice_ok h (LabelConstraints r)
  ∧ decoded h rest
  ∧ (∀ p, ptr (LabelConstraints r) = Some p →
       p ∉ omap (λ x, ptr (LabelConstraints x)) rest).
Proof.
  intros [Hall Hnd]. apply Forall_cons in Hall as [Hr Hrest].
  simpl in Hnd. destruct (ptr (LabelConstraints r)) as [p|] eqn:Hp; simpl in Hnd.
  - apply NoDup_cons in Hnd as [Hnotin Hnd]. split_and!; try done.
    by intros ? [= <-].
  - split_and!; done.
Qed.

Lemma ptr_elem_of (rest : Rules) x p :
  x ∈ rest → ptr (LabelConstraints x) = Some p →
  p ∈ omap (λ x, ptr (LabelConstraints x)) rest.
Proof. intros Hx Hp. apply list_elem_of_omap. eauto. Qed.

(** After an iteration on [r], the rules that follow are still as decoded,
    and their constraints read as before. *)
Lemma body_rest h r rest h1 res :
  decoded h (r :: rest) →
  Enable.body ks h r = (h1, res) →
  decoded h1 rest
  ∧ (∀ x p, x ∈ rest → ptr (LabelConstraints x) = Some p → h1 !! p = h !! p)
  ∧ (∀ x, x ∈ rest → elems h1 (LabelConstraints x) = elems h (LabelConstraints x)).
Proof.
  intros Hdec Hb. apply decoded_cons in Hdec as (Hr & [Hall Hnd] & Hfresh).
  assert (Hsame : ∀ x p, x ∈ rest → ptr (LabelConstraints x) = Some p →
                         h1 !! p = h !! p).
  { intros x p Hx Hp.
    assert (Hok : slice_ok h (LabelConstraints x)).
    { by eapply Forall_forall in Hall. }
    destruct Hok as [_ Harr]. rewrite Hp in Harr. destruct Harr as (a & Ha & _).
    rewrite (body_store _ _ _ _ Hr Hb _ _ Ha), Ha. f_equal.
    case_decide as Hd; [|done]. destruct Hd as (Hpr & _).
    destruct (Hfresh _ Hpr). by eapply ptr_elem_of. }
  split_and!; [split; [|done]|done|].
  - eapply Forall_impl; [exact Hall|]. intros x. apply slice_ok_step.
    by eapply body_keeps_arrays.
  - intros x Hx. unfold elems, backing.
    destruct (ptr (LabelConstraints x)) as [p|] eqn:Hp; [|done].
    by rewrite (Hsame _ _ Hx Hp).
Qed.

Lemma loop_cons h r rest acc :
  Enable.loop ks h (r :: rest) acc =
  match Enable.body ks h r with
  | (h1, inl p) => (h1, inl p)
  | (h1, inr None) => Enable.loop ks h1 rest acc
  | (h1, inr (Some r')) => Enable.loop ks h1 rest (acc ++ [r'])
  end.
Proof. reflexivity. Qed.

(** ** The whole loop of [Enable.main] *)

(** Whatever the store, a run that does not panic appends one derived rule
    per rule of the keyspace, in order, and has seen only "tiflash" rules. *)
Lemma loop_shape rules : ∀ h acc h' out,
  Enable.loop ks h rules acc = (h', inr out) →
  ∃ outs, out = acc ++ outs
    ∧ Forall2 (λ r r', r' = derived r (LabelConstraints r'))
        (List.filter (Enable.in_keyspace ks) rules) outs
    ∧ Forall (λ r, GroupID r = "tiflash") rules.
Proof.
  induction rules as [|r rest IH]; intros h acc h' out.
  - intros [= <- <-]. exists []. by rewrite app_nil_r.
  - rewrite loop_cons. destruct (Enable.body ks h r) as [h1 res] eqn:Hb.
    apply body_cases in Hb. destruct res as [e|[r'|]]; [done|..].
    + destruct Hb as (He & Hin & Hrw). intros Hl.
      destruct (IH _ _ _ _ Hl) as (outs & -> & HF & Hg).
      exists (r' :: outs). split_and!.
      * by rewrite <- app_assoc.
      * simpl. rewrite Hin. constructor; [|done]. by eapply rewrite_derived.
      * constructor; [by eapply checks_None_group | done].
    + destruct Hb as (He & Hin & ->). intros Hl.
      destruct (IH _ _ _ _ Hl) as (outs & -> & HF & Hg).
      exists outs. split_and!; [done|..].
      * simpl. by rewrite Hin.
      * constructor; [by eapply checks_None_group | done].
Qed.

(** On decoded input, a run that does not panic has checked every rule as it
    was decoded, leaves the two new constraints behind every output rule, and
    has overwritten exactly the arrays of the rules of the keyspace. *)
Lemma loop_decoded rules : ∀ h acc h' out,
  decoded h rules →
  Enable.loop ks h rules acc = (h', inr out) →
  ∃ outs, out = acc ++ outs
    ∧ Forall (λ r, Enable_checks h r = None) rules
    ∧ Forall2 (λ r r', r' = derived r (LabelConstraints r')
                 ∧ elems h' (LabelConstraints r')
                   = [Enable.wnConstraint; Enable.tiflashConstraint])
        (List.filter (Enable.in_keyspace ks) rules) outs
    ∧ (∀ r p a, r ∈ rules → ptr (LabelConstraints r) = Some p →
         h !! p = Some a →
         h' !! p = Some (if Enable.in_keyspace ks r then overwritten a else a))
    ∧ (∀ p a, h !! p = Some a →
         p ∉ omap (λ x, ptr (LabelConstraints x)) rules → h' !! p = Some a).
Proof.
  induction rules as [|r rest IH]; intros h acc h' out Hdec.
  - intros [= <- <-]. exists []. rewrite app_nil_r. split_and!; try done.
    intros r p a Hr. by apply elem_of_nil in Hr.
  - rewrite loop_cons. destruct (Enable.body ks h r) as [h1 res] eqn:Hb.
    destruct (body_rest _ _ _ _ _ Hdec Hb) as (Hdec1 & Hsame & Helems).
    destruct (decoded_cons _ _ _ Hdec) as (Hok & Hdec0 & Hfresh).
    pose proof (body_store _ _ _ _ Hok Hb) as Hst.
    pose proof (body_cases _ _ _ _ Hb) as Hc.
    assert (Hchk :
      Forall (λ x, Enable_checks h1 x = None) rest →
      Enable_checks h r = None →
      Forall (λ x, Enable_checks h x = None) (r :: rest)).
    { intros HF He. constructor; [done|].
      apply Forall_forall. intros x Hx.
      rewrite <- (checks_elems h1) by by apply Helems.
      by eapply Forall_forall in HF. }
    assert (Hhead : Enable_checks h r = None → ∀ p a,
      ptr (LabelConstraints r) = Some p → h !! p = Some a →
      (∀ p1 a1, h1 !! p1 = Some a1 →
         p1 ∉ omap (λ x, ptr (LabelConstraints x)) rest → h' !! p1 = Some a1) →
      h' !! p = Some (if Enable.in_keyspace ks r then overwritten a else a)).
    { intros He p a Hp Ha Hfr. apply Hfr; [|by apply Hfresh].
      rewrite (Hst _ _ Ha). f_equal.
      destruct (Enable.in_keyspace ks r); destruct (decide _) as [Hd|Hd]; try done.
      - destruct Hd. by split_and!.
      - by destruct Hd as (_ & _ & ?). }
    assert (Htail : ∀ x p a, x ∈ rest → ptr (LabelConstraints x) = Some p →
      h !! p = Some a → h1 !! p = Some a).
    { intros x p a Hx Hp Ha. by rewrite (Hsame _ _ Hx Hp). }
    assert (Hframe : ∀ p a, h !! p = Some a →
      p ∉ omap (λ x, ptr (LabelConstraints x)) (r :: rest) →
      h1 !! p = Some a ∧ p ∉ omap (λ x, ptr (LabelConstraints x)) rest).
    { intros p a Ha Hnot. simpl in Hnot.
      rewrite (Hst _ _ Ha).
      destruct (ptr (LabelConstraints r)) as [p0|] eqn:Hp0; simpl in Hnot.
      - apply not_elem_of_cons in Hnot as [Hne Hnot]. split; [|done].
        f_equal. destruct (decide _) as [Hd|Hd]; [|done].
        destruct Hd as ([= ->] & _). done.
      - split; [|done]. by f_equal. }
    destruct res as [e|[r'|]]; [done|..].
    + destruct Hc as (He & Hin & Hrw). intros Hl.
      destruct (IH _ _ _ _ Hdec1 Hl) as (outs & -> & HF & HF2 & Harr & Hfr).
      destruct (rewrite_store _ _ _ _ Hok Hrw) as (Hel & Hok' & Hptr & _).
      exists (r' :: outs). split_and!.
      * by rewrite <- app_assoc.
      * by apply Hchk.
      * simpl. rewrite Hin. constructor; [|done].
        split; [by eapply rewrite_derived|].
        rewrite <- Hel. unfold elems, backing.
        destruct Hok' as [_ Hok'].
        destruct (ptr (LabelConstraints r')) as [q|] eqn:Hq; [|done].
        destruct Hok' as (a' & Ha' & _). rewrite Ha'.
        rewrite (Hfr _ _ Ha'); [done|].
        destruct Hptr as [Hptr | (q0 & [= <-] & Hnone)].
        { apply Hfresh. congruence. }
        intros Hq0. apply list_elem_of_omap in Hq0 as (x & Hx & Hpx).
        destruct Hdec0 as [Hall _].
        eapply Forall_forall in Hall; [|exact Hx].
        destruct Hall as [_ Hall]. rewrite Hpx in Hall.
        destruct Hall as (? & ? & _). congruence.
      * intros x p a Hx Hp Ha. apply elem_of_cons in Hx as [->|Hx].
        { by apply Hhead. }
        eapply Harr; [done..|]. by eapply Htail.
      * intros p a Ha Hnot. destruct (Hframe _ _ Ha Hnot). by apply Hfr.
    + destruct Hc as (He & Hin & ->). intros Hl.
      destruct (IH _ _ _ _ Hdec1 Hl) as (outs & -> & HF & HF2 & Harr & Hfr).
      exists outs. split_and!; [done|..].
      * by apply Hchk.
      * simpl. by rewrite Hin.
      * intros x p a Hx Hp Ha. apply elem_of_cons in Hx as [->|Hx].
        { by apply Hhead. }
        eapply Harr; [done..|]. by eapply Htail.
      * intros p a Ha Hnot. destruct (Hframe _ _ Ha Hnot). by apply Hfr.
Qed.

(** On decoded input, the first rule that fails the checks as decoded stops
    the run with its panic, whatever precedes and follows it. *)
Lemma loop_decoded_panic l1 r l2 p : ∀ h acc,
  decoded h (l1 ++ r :: l2) →
  Forall (λ x, Enable_checks h x = None) l1 →
  Enable_checks h r = Some p →
  ∃ h', Enable.loop ks h (l1 ++ r :: l2) acc = (h', inl p).
Proof.
  induction l1 as [|x l1 IH]; intros h acc Hdec Hpass Hfail; simpl app.
  - rewrite loop_cons, Enable_body_eq, Hfail. eauto.
  - simpl app in Hdec. rewrite loop_cons.
    apply Forall_cons in Hpass as [Hx Hpass].
    destruct (Enable.body ks h x) as [h1 res] eqn:Hb.
    destruct (body_rest _ _ _ _ _ Hdec Hb) as (Hdec1 & _ & Helems).
    apply body_cases in Hb.
    assert (Hpass1 : Forall (λ y, Enable_checks h1 y = None) l1).
    { apply Forall_forall. intros y Hy.
      rewrite (checks_elems h1 h) by (apply Helems; set_solver).
      by eapply Forall_forall in Hpass. }
    assert (Hfail1 : Enable_checks h1 r = Some p).
    { rewrite (checks_elems h1 h) by (apply Helems; set_solver). done. }
    destruct res as [e|[x'|]]; [destruct Hb; congruence|..]; by apply IH.
Qed.

End Run.

(** ** The loop of [Check.main] *)

Lemma Check_loop_panic h l1 r l2 p :
  Forall (λ x, Check.body h x = None) l1 →
  Check.body h r = Some p →
  Check.loop h (l1 ++ r :: l2) = Some p.
Proof.
  intros Hpass Hfail. induction Hpass as [|x l1 Hx _ IH]; simpl.
  - by rewrite Hfail.
  - by rewrite Hx.
Qed.

Lemma Check_loop_None h rules :
  Check.loop h rules = None ↔ Forall (λ x, Check.body h x = None) rules.
Proof.
  induction rules as [|x rules IH]; simpl.
  - split; [by constructor | done].
  - destruct (Check.body h x) eqn:Hx.
    + split; [done | intros HF; apply Forall_cons in HF as [? _]; congruence].
    + rewrite IH. split; [by constructor | by intros [_ ?]%Forall_cons].
Qed.

Lemma Check_body_group h r :
  GroupID r ≠ "tiflash" →
  Check.body h r = Some (Panic "got rule that are not tiflash group").
Proof. intros Hg. unfold Check.body. by destruct (decide _). Qed.


Lemma FindConstraint_first cons key c :
  FindConstraint cons key = Some c ↔
  ∃ pre post, cons = pre ++ c :: post ∧ Key c = key
              ∧ Forall (λ x, Key x ≠ key) pre.
Proof.
  induction cons as [|x cons IH]; simpl.
  - split; [done | intros ([|??] & ? & ? & _); done].
  - destruct (decide (Key x = key)) as [Hx|Hx].
    + split.
      * intros [= ->]. exists [], cons. by repeat split.
      * intros ([|y pre] & post & Heq & Hk & Hpre); simplify_eq/=; [done|].
        by apply Forall_cons in Hpre as [? _].
    + rewrite IH. split.
      * intros (pre & post & -> & Hk & Hpre). exists (x :: pre), post.
        split_and!; [done..|by constructor].
      * intros ([|y pre] & post & Heq & Hk & Hpre); simplify_eq/=.
        apply Forall_cons in Hpre as [_ Hpre]. eauto.
Qed.

Lemma FindConstraint_None cons key :
  FindConstraint cons key = None ↔ Forall (λ x, Key x ≠ key) cons.
Proof.
  induction cons as [|x cons IH]; simpl; [by split|].
  destruct (decide (Key x = key)) as [Hx|Hx].
  - split; [done | by intros [? _]%Forall_cons].
  - rewrite IH. split; [by constructor | by intros [_ ?]%Forall_cons].
Qed.

(** The outcome of both bodies on a "tiflash" rule, from what the lookup of
    "engine_role" finds. *)
Lemma bodies_by_lookup ks h rule :
  GroupID rule = "tiflash" →
  match FindConstraint (elems h (LabelConstraints rule)) "engine_role" with
  | None =>
      Check.body h rule
        = Some (Panicf "this rule doesn't disable wn, ignore: %v" rule)
      ∧ Enable.body ks h rule
        = (h, inl (Panicf "rule should have engine_role constraints: %v" rule))
  | Some c =>
      (excludes_write c →
         Check.body h rule = None ∧ ∃ h1 o, Enable.body ks h rule = (h1, inr o))
      ∧ (¬ excludes_write c →
         Check.body h rule = Some (Panicf "invalid rule: %v" rule)
         ∧ Enable.body ks h rule = (h, inl (Panicf "invalid rule: %v" rule)))
  end.
Proof.
  intros Hg. unfold Enable.body, Check.body.
  destruct (decide (GroupID rule ≠ "tiflash")); [done|].
  rewrite ?Enable_scan_FindConstraint, ?scan_FindConstraint.
  change LabelKeyEngineRole with "engine_role".
  destruct (FindConstraint _ _) as [c|]; [|done].
  destruct (decide (excludes_write c)) as [Hc|Hc]; simpl.
  - split; [|done]. intros _. split; [done|].
    destruct (_ && _); [eauto|]. destruct (Enable.rewrite h rule). eauto.
  - split; [done|]. by intros _.
Qed.

(** ** The scenarios of the specification, by evaluation *)

Example scenario_rewrite :
  Enable.main "ks1" Sample.store1 [Sample.r1]
  = (Sample.store1', inr [Sample.r1']).
Proof. vm_compute. reflexivity. Qed.

Example scenario_missing_constraint :
  Check.main ∅ [Sample.r_bare]
  = inl (Panicf "this rule doesn't disable wn, ignore: %v" Sample.r_bare)
  ∧ Enable.main "ks1" ∅ [Sample.r_bare]
    = (∅, inl (Panicf "rule should have engine_role constraints: %v"
                 Sample.r_bare)).
Proof. split; vm_compute; reflexivity. Qed.

Example scenario_other_group :
  Check.main Sample.store3 [Sample.r_other]
  = inl (Panic "got rule that are not tiflash group")
  ∧ Enable.main "ks1" Sample.store3 [Sample.r_other]
    = (Sample.store3, inl (Panic "got rule that are not tiflash group")).
Proof. split; vm_compute; reflexivity. Qed.

(** * The claims *)

(** C2 (as amended). For every rule of group "tiflash", in both programs:
    the exclusion check passes if and only if the FIRST label constraint with
    key "engine_role" has operator [NotIn] and values exactly ["write"]; when
    no constraint has that key the rule fails with the "lacks" panic of the
    program ("this rule doesn't disable wn" in check.go, "rule should have
    engine_role constraints" in enable.go); when the first one has another
    operator or value list it fails with the "invalid rule" panic. *)
Theorem exclusion_check_first_match ks h rule :
  GroupID rule = "tiflash" →
  match FindConstraint (elems h (LabelConstraints rule)) "engine_role" with
  | None =>
      Check.body h rule
        = Some (Panicf "this rule doesn't disable wn, ignore: %v" rule)
      ∧ Enable.body ks h rule
        = (h, inl (Panicf "rule should have engine_role constraints: %v" rule))
  | Some c =>
      (Op c = NotIn ∧ Values c = ["write"] →
         Check.body h rule = None ∧ ∃ h1 o, Enable.body ks h rule = (h1, inr o))
      ∧ (¬ (Op c = NotIn ∧ Values c = ["write"]) →
         Check.body h rule = Some (Panicf "invalid rule: %v" rule)
         ∧ Enable.body ks h rule = (h, inl (Panicf "invalid rule: %v" rule)))
  end.
Proof. intros Hg. exact (bodies_by_lookup ks h rule Hg). Qed.

Lemma exclusion_check_first_match_witness :
  Check.body Sample.store3 Sample.ra = None
  ∧ ∃ h1 o, Enable.body "ks1" Sample.store3 Sample.ra = (h1, inr o).
Proof.
  apply (exclusion_check_first_match "ks1" Sample.store3 Sample.ra);
    [reflexivity | split; reflexivity].
Defined.

(** C2 (as stated) fails: the rule [Sample.r_dup] has a label constraint with
    key "engine_role", operator [NotIn] and values ["write"], yet both
    programs reject it as invalid, because an earlier constraint with the
    same key is malformed; and the rule [Sample.r_dup2] has a constraint with
    that key and another operator, yet both programs accept it, because an
    earlier constraint with the same key is well-formed. *)
Lemma exclusion_check_not_any_match :
  ((∃ c, c ∈ elems Sample.store_dup (LabelConstraints Sample.r_dup)
         ∧ Key c = "engine_role" ∧ Op c = NotIn ∧ Values c = ["write"])
   ∧ Check.body Sample.store_dup Sample.r_dup
     = Some (Panicf "invalid rule: %v" Sample.r_dup)
   ∧ Enable.body "ks1" Sample.store_dup Sample.r_dup
     = (Sample.store_dup, inl (Panicf "invalid rule: %v" Sample.r_dup)))
  ∧ ((∃ c, c ∈ elems Sample.store_dup2 (LabelConstraints Sample.r_dup2)
          ∧ Key c = "engine_role" ∧ Op c ≠ NotIn)
     ∧ Check.body Sample.store_dup2 Sample.r_dup2 = None
     ∧ ∃ h1 o, Enable.body "ks1" Sample.store_dup2 Sample.r_dup2 = (h1, inr o)).
Proof.
  split; split_and!; try reflexivity.
  - exists Sample.exclusion. split; [|done].
    change (elems _ _) with [Sample.inclusion; Sample.exclusion].
    apply list_elem_of_In. simpl. tauto.
  - exists Sample.inclusion. split; [|done].
    change (elems _ _) with [Sample.engine; Sample.exclusion; Sample.inclusion].
    apply list_elem_of_In. simpl. tauto.
  - by eexists _, _.
Qed.

(** C10. In both programs only the first label constraint with key
    "engine_role" is inspected: when it has operator [NotIn] and values
    ["write"], the rule passes the exclusion check whatever constraints
    follow it. *)
Theorem first_match_wins ks h rule pre c post :
  GroupID rule = "tiflash" →
  elems h (LabelConstraints rule) = pre ++ c :: post →
  Forall (λ x, Key x ≠ "engine_role") pre →
  Key c = "engine_role" → Op c = NotIn → Values c = ["write"] →
  Check.body h rule = None
  ∧ ∃ h1 o, Enable.body ks h rule = (h1, inr o).
Proof.
  intros Hg Hel Hpre Hk Hop Hv.
  pose proof (bodies_by_lookup ks h rule Hg) as Hb.
  assert (Hf : FindConstraint (elems h (LabelConstraints rule)) "engine_role"
               = Some c).
  { apply FindConstraint_first. eauto. }
  rewrite Hf in Hb. by apply Hb.
Qed.

Lemma first_match_wins_witness :
  Check.body Sample.store_dup2 Sample.r_dup2 = None
  ∧ ∃ h1 o, Enable.body "ks1" Sample.store_dup2 Sample.r_dup2 = (h1, inr o).
Proof.
  apply (first_match_wins "ks1" Sample.store_dup2 Sample.r_dup2
           [Sample.engine] Sample.exclusion [Sample.inclusion]);
    [reflexivity | reflexivity | by_evaluation | reflexivity..].
Defined.

(** C3. When some rule of the input has a [GroupID] other than "tiflash",
    check.go and enable.go both end in a panic, hence without printing
    anything: a rule set is processed to the end only if every rule is of
    group "tiflash". *)
Theorem wrong_group_aborts ks h rules :
  List.Exists (λ r, GroupID r ≠ "tiflash") rules →
  (∃ p, Check.main h rules = inl p)
  ∧ (∃ h' p, Enable.main ks h rules = (h', inl p)).
Proof.
  intros Hex. split.
  - unfold Check.main. destruct (Check.loop h rules) as [p|] eqn:Hl; [eauto|].
    apply Check_loop_None in Hl. apply Exists_exists in Hex as (r & Hr & Hg).
    eapply Forall_forall in Hl; [|exact Hr].
    by rewrite (Check_body_group _ _ Hg) in Hl.
  - unfold Enable.main.
    destruct (Enable.loop ks h rules []) as [h' [p|out]] eqn:Hl; [eauto|].
    apply loop_shape in Hl as (_ & _ & _ & Hall).
    apply Exists_exists in Hex as (r & Hr & Hg).
    eapply Forall_forall in Hall; [|exact Hr]. done.
Qed.

Lemma wrong_group_aborts_witness :
  (∃ p, Check.main Sample.store3 [Sample.ra; Sample.r_other; Sample.rc] = inl p)
  ∧ (∃ h' p, Enable.main "ks1" Sample.store3
               [Sample.ra; Sample.r_other; Sample.rc] = (h', inl p)).
Proof.
  apply (wrong_group_aborts "ks1" Sample.store3
           [Sample.ra; Sample.r_other; Sample.rc]).
  by_evaluation.
Defined.

Lemma Exists_first {A} (P : A → Prop) `{!∀ x, Decision (P x)} (l : list A) :
  List.Exists P l →
  ∃ l1 x l2, l = l1 ++ x :: l2 ∧ Forall (λ y, ¬ P y) l1 ∧ P x.
Proof.
  induction l as [|y l IH]; intros Hex; [by apply Exists_nil in Hex|].
  destruct (decide (P y)) as [Hy|Hy].
  - by exists [], y, l.
  - apply Exists_cons in Hex as [?|Hex]; [done|].
    destruct (IH Hex) as (l1 & x & l2 & -> & Hl1 & Hx).
    exists (y :: l1), x, l2. split_and!; [done| by constructor | done].
Qed.

(** C4. Both runs are all-or-nothing. When some rule of the decoded input
    fails a check, there is a first such rule [r]: check.go panics with the
    panic of [r], whatever follows it, and enable.go panics with the panic
    its own body raises on [r], whether or not [r] belongs to the keyspace;
    neither produces a result for any part of the input. *)
Theorem first_failure_aborts ks h rules :
  decoded h rules →
  List.Exists (λ r, Check.body h r ≠ None) rules →
  ∃ l1 r l2 p p',
    rules = l1 ++ r :: l2
    ∧ Forall (λ x, Check.body h x = None) l1
    ∧ Check.body h r = Some p
    ∧ Check.main h rules = inl p
    ∧ Enable.body ks h r = (h, inl p')
    ∧ ∃ h', Enable.main ks h rules = (h', inl p').
Proof.
  intros Hdec Hex.
  apply Exists_first in Hex as (l1 & r & l2 & -> & Hl1 & Hr); [|apply _].
  assert (Hpass : Forall (λ x, Check.body h x = None) l1).
  { eapply Forall_impl; [exact Hl1|]. intros x Hx. simpl in Hx.
    by destruct (Check.body h x); [destruct Hx|]. }
  destruct (Check.body h r) as [p|] eqn:Hp; [|done].
  destruct (Enable_checks h r) as [p'|] eqn:Hp'.
  2:{ apply checks_None_iff in Hp'. congruence. }
  exists l1, r, l2, p, p'. split_and!; try done.
  - unfold Check.main. by rewrite (Check_loop_panic _ _ _ _ _ Hpass Hp).
  - by rewrite Enable_body_eq, Hp'.
  - apply loop_decoded_panic; [done| |done].
    eapply Forall_impl; [exact Hpass|]. intros x. apply checks_None_iff.
Qed.

Lemma first_failure_aborts_witness :
  ∃ l1 r l2 p p',
    [Sample.ra; Sample.r_bare; Sample.rc] = l1 ++ r :: l2
    ∧ Forall (λ x, Check.body Sample.store3 x = None) l1
    ∧ Check.body Sample.store3 r = Some p
    ∧ Check.main Sample.store3 [Sample.ra; Sample.r_bare; Sample.rc] = inl p
    ∧ Enable.body "ks1" Sample.store3 r = (Sample.store3, inl p')
    ∧ ∃ h', Enable.main "ks1" Sample.store3
              [Sample.ra; Sample.r_bare; Sample.rc] = (h', inl p').
Proof.
  apply (first_failure_aborts "ks1" Sample.store3
           [Sample.ra; Sample.r_bare; Sample.rc]); by_evaluation.
Defined.



Lemma filter_ids_sublist (f : Rule → bool) (l : Rules) :
  sublist (ID <$> List.filter f l) (ID <$> l).
Proof.
  induction l as [|x l IH]; simpl; [constructor|].
  destruct (f x); simpl; by constructor.
Qed.

Lemma filter_length (f : Rule → bool) (l : Rules) :
  (length (List.filter f l) ≤ length l)%nat.
Proof. induction l as [|x l IH]; simpl; [done|]. destruct (f x); simpl; lia. Qed.

Lemma derived_ids (l out : Rules) :
  Forall2 (λ r r', r' = derived r (LabelConstraints r')) l out →
  ID <$> out = ID <$> l.
Proof.
  induction 1 as [|r r' l out Hr _ IH]; [done|].
  rewrite !fmap_cons, IH. f_equal. by rewrite Hr.
Qed.

Lemma in_keyspace_by_id ks r x :
  ID r = ID x → Enable.in_keyspace ks r = Enable.in_keyspace ks x.
Proof. unfold Enable.in_keyspace. by intros ->. Qed.

(** C6. When enable.go succeeds, its output is the rules of the keyspace, one
    derived rule for each, in the order of the input: nothing is inserted or
    repeated, the output is at most as long as the input, and the [ID] of a
    dropped rule does not occur in the output. *)
Theorem output_order ks h rules h' out :
  Enable.main ks h rules = (h', inr out) →
  Forall2 (λ r r', r' = derived r (LabelConstraints r'))
    (List.filter (Enable.in_keyspace ks) rules) out
  ∧ ID <$> out = ID <$> List.filter (Enable.in_keyspace ks) rules
  ∧ sublist (ID <$> out) (ID <$> rules)
  ∧ (length out ≤ length rules)%nat
  ∧ (∀ r, r ∈ rules → Enable.in_keyspace ks r = false → ID r ∉ ID <$> out).
Proof.
  intros Hl. apply loop_shape in Hl as (outs & -> & HF & _). simpl.
  pose proof (derived_ids _ _ HF) as Hids.
  split_and!; [done|done|..].
  - rewrite Hids. apply filter_ids_sublist.
  - rewrite <- (Forall2_length _ _ _ HF). apply filter_length.
  - intros r _ Hout Hin. rewrite Hids in Hin.
    apply list_elem_of_fmap in Hin as (x & Hid & Hx).
    apply list_elem_of_In, filter_In in Hx as [_ Hx].
    rewrite (in_keyspace_by_id ks r x Hid) in Hout. congruence.
Qed.

Lemma output_order_witness :
  Forall2 (λ r r', r' = derived r (LabelConstraints r'))
    (List.filter (Enable.in_keyspace "ks1") Sample.rules3) Sample.out3
  ∧ ID <$> Sample.out3
    = ID <$> List.filter (Enable.in_keyspace "ks1") Sample.rules3
  ∧ sublist (ID <$> Sample.out3) (ID <$> Sample.rules3)
  ∧ (length Sample.out3 ≤ length Sample.rules3)%nat
  ∧ (∀ r, r ∈ Sample.rules3 → Enable.in_keyspace "ks1" r = false →
          ID r ∉ ID <$> Sample.out3).
Proof.
  apply (output_order "ks1" Sample.store3 Sample.rules3 Sample.store3').
  vm_compute. reflexivity.
Defined.

(** C7. The output of enable.go never passes check.go: when enable.go
    succeeds with at least one output rule, check.go run on that output
    panics on the group, because every output rule has left group
    "tiflash". *)
Theorem check_after_enable_fails ks h rules h' out :
  Enable.main ks h rules = (h', inr out) →
  out ≠ [] →
  Check.main h' out = inl (Panic "got rule that are not tiflash group").
Proof.
  intros Hl Hne. apply loop_shape in Hl as (outs & -> & HF & _). simpl in *.
  destruct HF as [|r r' l outs Hr _]; [done|].
  unfold Check.main. simpl. rewrite Check_body_group; [done|].
  by rewrite Hr.
Qed.

Lemma check_after_enable_fails_witness :
  Check.main Sample.store3' Sample.out3
  = inl (Panic "got rule that are not tiflash group").
Proof.
  apply (check_after_enable_fails "ks1" Sample.store3 Sample.rules3).
  - vm_compute. reflexivity.
  - discriminate.
Defined.

(** C8. Every output rule of enable.go carries over from its source rule the
    fields [ID], [StartKey], [StartKeyHex], [EndKey], [EndKeyHex], [Role],
    [LocationLabels] and [IsolationLevel] (and the runtime-only fields):
    only [GroupID], [Index], [Count] and [LabelConstraints] are assigned. *)
Theorem other_fields_carried_over ks h rules h' out :
  Enable.main ks h rules = (h', inr out) →
  Forall2 (λ r r',
      ID r' = ID r
      ∧ StartKey r' = StartKey r ∧ StartKeyHex r' = StartKeyHex r
      ∧ EndKey r' = EndKey r ∧ EndKeyHex r' = EndKeyHex r
      ∧ Role r' = Role r
      ∧ LocationLabels r' = LocationLabels r
      ∧ IsolationLevel r' = IsolationLevel r
      ∧ Override r' = Override r ∧ IsWitness r' = IsWitness r
      ∧ Version r' = Version r ∧ CreateTimestamp r' = CreateTimestamp r
      ∧ group r' = group r)
    (List.filter (Enable.in_keyspace ks) rules) out.
Proof.
  intros Hl. apply loop_shape in Hl as (outs & -> & HF & _). simpl.
  eapply Forall2_impl; [exact HF|]. intros r r' ->. by repeat split.
Qed.

Lemma other_fields_carried_over_witness :
  Forall2 (λ r r',
      ID r' = ID r
      ∧ StartKey r' = StartKey r ∧ StartKeyHex r' = StartKeyHex r
      ∧ EndKey r' = EndKey r ∧ EndKeyHex r' = EndKeyHex r
      ∧ Role r' = Role r
      ∧ LocationLabels r' = LocationLabels r
      ∧ IsolationLevel r' = IsolationLevel r
      ∧ Override r' = Override r ∧ IsWitness r' = IsWitness r
      ∧ Version r' = Version r ∧ CreateTimestamp r' = CreateTimestamp r
      ∧ group r' = group r)
    (List.filter (Enable.in_keyspace "ks1") Sample.rules3) Sample.out3.
Proof.
  apply (other_fields_carried_over "ks1" Sample.store3 Sample.rules3
           Sample.store3').
  vm_compute. reflexivity.
Defined.

(** C1. On decoded input on which enable.go succeeds, the output rule of
    every rule of the keyspace (all of which passed the group and exclusion
    checks) has [GroupID] "enable_s3_wn_region", [Index] 1, [Count] 1, and
    its [LabelConstraints] read, in the final store, as exactly the two
    constraints "engine_role" in ["write"] and "engine" in ["tiflash"], in
    this order. *)
Theorem rewritten_rule_shape ks h rules h' out :
  decoded h rules →
  Enable.main ks h rules = (h', inr out) →
  Forall (λ r, Check.body h r = None) rules
  ∧ Forall2 (λ r r',
        GroupID r' = "enable_s3_wn_region"
        ∧ Index r' = 1%Z ∧ Count r' = 1%Z
        ∧ elems h' (LabelConstraints r')
          = [ {| Key := "engine_role"; Op := In; Values := ["write"] |};
              {| Key := "engine"; Op := In; Values := ["tiflash"] |} ])
      (List.filter (Enable.in_keyspace ks) rules) out.
Proof.
  intros Hdec Hl.
  apply loop_decoded in Hl as (outs & -> & Hchk & HF & _); [|done]. simpl.
  split.
  - eapply Forall_impl; [exact Hchk|]. intros r. apply checks_None_iff.
  - eapply Forall2_impl; [exact HF|]. intros r r' [-> Hel]. by repeat split.
Qed.

Lemma rewritten_rule_shape_witness :
  Forall (λ r, Check.body Sample.store1 r = None) [Sample.r1]
  ∧ Forall2 (λ r r',
        GroupID r' = "enable_s3_wn_region"
        ∧ Index r' = 1%Z ∧ Count r' = 1%Z
        ∧ elems Sample.store1' (LabelConstraints r')
          = [ {| Key := "engine_role"; Op := In; Values := ["write"] |};
              {| Key := "engine"; Op := In; Values := ["tiflash"] |} ])
      (List.filter (Enable.in_keyspace "ks1") [Sample.r1]) [Sample.r1'].
Proof.
  apply (rewritten_rule_shape "ks1" Sample.store1 [Sample.r1]).
  - by_evaluation.
  - vm_compute. reflexivity.
Defined.

(** C9 (as stated) fails: in the scenario of the specification the only input
    rule reads as ["engine_role" notIn ["write"]] when decoded and as
    ["engine_role" in ["write"]] after the run, because the first [append]
    of the rewrite stored the new constraint in the array the input rule
    points to. *)
Lemma input_constraints_overwritten :
  decoded Sample.store1 [Sample.r1]
  ∧ Enable.main "ks1" Sample.store1 [Sample.r1] = (Sample.store1', inr [Sample.r1'])
  ∧ elems Sample.store1 (LabelConstraints Sample.r1)
    = [ {| Key := "engine_role"; Op := NotIn; Values := ["write"] |} ]
  ∧ elems Sample.store1' (LabelConstraints Sample.r1)
    = [ {| Key := "engine_role"; Op := In; Values := ["write"] |} ].
Proof. split_and!; [by_evaluation | vm_compute; reflexivity | done | done]. Qed.

(** C9 (as amended). On decoded input on which enable.go succeeds, the
    constraints of every rule outside the keyspace read after the run as
    they did when decoded; the backing array of every rule of the keyspace
    has been written to by the rewrite: its first two cells, as far as it
    has them, hold the two new constraints, and its other cells are
    unchanged. *)
Theorem input_arrays_after_run ks h rules h' out :
  decoded h rules →
  Enable.main ks h rules = (h', inr out) →
  ∀ r, r ∈ rules →
    (Enable.in_keyspace ks r = false →
       elems h' (LabelConstraints r) = elems h (LabelConstraints r))
    ∧ (Enable.in_keyspace ks r = true →
       backing h' (LabelConstraints r)
       = take (length (backing h (LabelConstraints r)))
           [ {| Key := "engine_role"; Op := In; Values := ["write"] |};
             {| Key := "engine"; Op := In; Values := ["tiflash"] |} ]
         ++ drop 2 (backing h (LabelConstraints r))).
Proof.
  intros Hdec Hl r Hr.
  apply loop_decoded in Hl as (outs & _ & _ & _ & Harr & _); [|done].
  destruct Hdec as [Hall _]. eapply Forall_forall in Hall; [|exact Hr].
  destruct Hall as [_ Hptr]. unfold elems, backing.
  destruct (ptr (LabelConstraints r)) as [p|] eqn:Hp; [|done].
  destruct Hptr as (a & Ha & _).
  rewrite (Harr _ _ _ Hr Hp Ha), Ha.
  split; intros ->; done.
Qed.

Lemma input_arrays_after_run_witness :
  elems Sample.store3' (LabelConstraints Sample.rb)
  = elems Sample.store3 (LabelConstraints Sample.rb)
  ∧ backing Sample.store3' (LabelConstraints Sample.ra)
    = [ {| Key := "engine_role"; Op := In; Values := ["write"] |};
        {| Key := "engine"; Op := In; Values := ["tiflash"] |};
        zero_constraint; zero_constraint ].
Proof.
  assert (Hdec : decoded Sample.store3 Sample.rules3) by by_evaluation.
  assert (Hrun : Enable.main "ks1" Sample.store3 Sample.rules3
                 = (Sample.store3', inr Sample.out3))
    by (vm_compute; reflexivity).
  split.
  - apply (input_arrays_after_run "ks1" _ _ _ _ Hdec Hrun Sample.rb);
      [by_evaluation | reflexivity].
  - apply (input_arrays_after_run "ks1" _ _ _ _ Hdec Hrun Sample.ra);
      [by_evaluation | reflexivity].
Defined.

(** * Further properties of the two programs and of the second program of
      src/enable.go *)

(** ** More on the whole loop of [Enable.main] *)

Section RunMore.
Context (ks : string).

(** Whatever the outcome, the run leaves alone the arrays that no rule of
    the input points to. *)
Lemma loop_frame rules : ∀ h acc h' res,
  decoded h rules →
  Enable.loop ks h rules acc = (h', res) →
  ∀ p a, h !! p = Some a →
    p ∉ omap (λ x, ptr (LabelConstraints x)) rules → h' !! p = Some a.
Proof.
  induction rules as [|r rest IH]; intros h acc h' res Hdec.
  - by intros [= <- <-].
  - rewrite loop_cons. destruct (Enable.body ks h r) as [h1 o] eqn:Hb.
    destruct (body_rest _ _ _ _ _ _ Hdec Hb) as (Hdec1 & _ & _).
    destruct (decoded_cons _ _ _ Hdec) as (Hok & _ & _).
    pose proof (body_store _ _ _ _ _ Hok Hb) as Hst.
    intros Hl p a Ha Hnot.
    assert (H1 : h1 !! p = Some a
                 ∧ p ∉ omap (λ x, ptr (LabelConstraints x)) rest).
    { rewrite (Hst _ _ Ha). simpl in Hnot.
      destruct (ptr (LabelConstraints r)) as [p0|] eqn:Hp0; simpl in Hnot.
      - apply not_elem_of_cons in Hnot as [Hne Hnot]. split; [|done].
        f_equal. destruct (decide _) as [Hd|Hd]; [|done].
        destruct Hd as ([= ->] & _). done.
      - split; [|done]. by f_equal. }
    destruct H1 as [Ha1 Hnot1].
    destruct o as [e|[r'|]].
    + by injection Hl as <- <-.
    + by eapply IH.
    + by eapply IH.
Qed.

(** Whatever the outcome, every array allocated before the run is still
    allocated after it, with the same number of cells. *)
Lemma loop_keeps_arrays rules : ∀ h acc h' res,
  decoded h rules →
  Enable.loop ks h rules acc = (h', res) →
  ∀ p a, h !! p = Some a → ∃ a1, h' !! p = Some a1 ∧ length a1 = length a.
Proof.
  induction rules as [|r rest IH]; intros h acc h' res Hdec.
  - intros [= <- <-]. eauto.
  - rewrite loop_cons. destruct (Enable.body ks h r) as [h1 o] eqn:Hb.
    destruct (body_rest _ _ _ _ _ _ Hdec Hb) as (Hdec1 & _ & _).
    destruct (decoded_cons _ _ _ Hdec) as (Hok & _ & _).
    intros Hl p a Ha.
    destruct (body_keeps_arrays _ _ _ _ _ Hok Hb _ _ Ha) as (a1 & Ha1 & Hl1).
    destruct o as [e|[r'|]].
    + injection Hl as <- <-. eauto.
    + destruct (IH _ _ _ _ Hdec1 Hl _ _ Ha1) as (a2 & ? & ?).
      exists a2. split; [done | congruence].
    + destruct (IH _ _ _ _ Hdec1 Hl _ _ Ha1) as (a2 & ? & ?).
      exists a2. split; [done | congruence].
Qed.

(** On decoded input whose rules all pass the checks, the run does not
    panic. *)
Lemma loop_decoded_ok rules : ∀ h acc,
  decoded h rules →
  Forall (λ x, Enable_checks h x = None) rules →
  ∃ h' out, Enable.loop ks h rules acc = (h', inr out).
Proof.
  induction rules as [|r rest IH]; intros h acc Hdec Hpass.
  - simpl. eauto.
  - rewrite loop_cons. apply Forall_cons in Hpass as [Hr Hpass].
    destruct (Enable.body ks h r) as [h1 o] eqn:Hb.
    destruct (body_rest _ _ _ _ _ _ Hdec Hb) as (Hdec1 & _ & Helems).
    apply body_cases in Hb.
    assert (Hpass1 : Forall (λ y, Enable_checks h1 y = None) rest).
    { apply Forall_forall. intros y Hy.
      rewrite (checks_elems h1 h) by by apply Helems.
      by eapply Forall_forall in Hpass. }
    destruct o as [e|[r'|]]; [destruct Hb; congruence|..]; by apply IH.
Qed.

End RunMore.

(** ** The second program of src/enable.go *)

Lemma ListIds_loop_fmap rules : ∀ acc,
  ListIds.loop rules acc = acc ++ (ListIds.body <$> rules).
Proof.
  induction rules as [|r rest IH]; intros acc; simpl.
  - by rewrite app_nil_r.
  - rewrite IH. by rewrite <- app_assoc.
Qed.



Lemma rule_keys_sublist (f : Rule → bool) (l out : Rules) :
  Forall2 (λ r r', r' = derived r (LabelConstraints r')) (List.filter f l) out →
  sublist (rule_key <$> out) (rule_key <$> (ListIds.body <$> l)).
Proof.
  revert out. induction l as [|x l IH]; intros out; cbn [List.filter].
  - intros HF. apply Forall2_nil_inv_l in HF as ->. constructor.
  - rewrite !fmap_cons. destruct (f x).
    + intros HF. apply Forall2_cons_inv_l in HF as (r' & out' & Hr & HF & ->).
      rewrite fmap_cons, Hr.
      change (rule_key (derived x _)) with (rule_key (ListIds.body x)).
      apply sublist_skip. by apply IH.
    + intros HF. apply sublist_cons. by apply IH.
Qed.

(** X2. Every rule [Enable.main] outputs is listed by the second program
    run on the same input: the (group, [ID]) keys of the transformer's
    output form a sublist of the keys the second program emits. *)
Theorem Enable_output_listed ks h rules h' out :
  Enable.main ks h rules = (h', inr out) →
  sublist (rule_key <$> out) (rule_key <$> ListIds.main rules).
Proof.
  intros Hl. apply loop_shape in Hl as (outs & -> & HF & _). simpl.
  unfold ListIds.main. rewrite ListIds_loop_fmap. simpl.
  by eapply rule_keys_sublist.
Qed.

Lemma Enable_output_listed_witness :
  sublist (rule_key <$> Sample.out3) (rule_key <$> ListIds.main Sample.rules3).
Proof.
  apply (Enable_output_listed "ks1" Sample.store3 Sample.rules3 Sample.store3').
  vm_compute. reflexivity.
Defined.

(** ** What the validator accepts, and how the transformer follows it *)

Lemma Check_body_None_iff h r :
  Check.body h r = None ↔
  GroupID r = "tiflash"
  ∧ ∃ c, FindConstraint (elems h (LabelConstraints r)) "engine_role" = Some c
         ∧ Op c = NotIn ∧ Values c = ["write"].
Proof.
  split.
  - intros Hb.
    destruct (decide (GroupID r = "tiflash")) as [Hg|Hg].
    2:{ by rewrite (Check_body_group _ _ Hg) in Hb. }
    split; [done|]. pose proof (bodies_by_lookup "" h r Hg) as Hl.
    destruct (FindConstraint _ _) as [c|].
    + exists c. split; [done|].
      destruct (decide (excludes_write c)) as [Hc|Hc]; [done|].
      destruct Hl as [_ Hl]. destruct (Hl Hc) as [Hl' _]. congruence.
    + destruct Hl as [Hl _]. congruence.
  - intros (Hg & c & Hf & Hop & Hv).
    pose proof (bodies_by_lookup "" h r Hg) as Hl. rewrite Hf in Hl.
    by apply Hl.
Qed.

(** X3. [Check.main] prints its success line exactly when every rule is of
    group "tiflash" and the first of its label constraints with key
    "engine_role" has operator "notIn" and the single value "write"; an
    empty rule list is accepted. *)
Theorem Check_success_iff h rules :
  Check.main h rules = inr "check done, all rules has engine_role constraints"
  ↔ Forall (λ r,
        GroupID r = "tiflash"
        ∧ ∃ c, FindConstraint (elems h (LabelConstraints r)) "engine_role"
               = Some c
               ∧ Op c = NotIn ∧ Values c = ["write"]) rules.
Proof.
  unfold Check.main. destruct (Check.loop h rules) as [p|] eqn:Hl.
  - split; [done|]. intros HF.
    assert (Hn : Check.loop h rules = None).
    { apply Check_loop_None. eapply Forall_impl; [exact HF|].
      intros r. apply Check_body_None_iff. }
    congruence.
  - split; [|done]. intros _. apply Check_loop_None in Hl.
    eapply Forall_impl; [exact Hl|]. intros r. apply Check_body_None_iff.
Qed.

(** X4. On decoded input the transformer succeeds, for any keyspace,
    exactly when the validator accepts the same input. *)
Theorem Enable_succeeds_iff_Check ks h rules :
  decoded h rules →
  (∃ h' out, Enable.main ks h rules = (h', inr out))
  ↔ Check.main h rules
    = inr "check done, all rules has engine_role constraints".
Proof.
  intros Hdec. unfold Check.main. split.
  - intros (h' & out & Hl).
    apply loop_decoded in Hl as (_ & _ & Hchk & _); [|done].
    assert (Hn : Check.loop h rules = None).
    { apply Check_loop_None. eapply Forall_impl; [exact Hchk|].
      intros r. apply checks_None_iff. }
    by rewrite Hn.
  - destruct (Check.loop h rules) as [p|] eqn:Hl; [done|]. intros _.
    apply Check_loop_None in Hl. apply loop_decoded_ok; [done|].
    eapply Forall_impl; [exact Hl|]. intros r. apply checks_None_iff.
Qed.

Lemma Enable_succeeds_iff_Check_witness :
  (∃ h' out, Enable.main "ks2" Sample.store3 Sample.rules3 = (h', inr out))
  ↔ Check.main Sample.store3 Sample.rules3
    = inr "check done, all rules has engine_role constraints".
Proof.
  apply (Enable_succeeds_iff_Check "ks2" Sample.store3 Sample.rules3).
  by_evaluation.
Defined.



Lemma loop_no_match ks rules : ∀ h acc,
  Forall (λ r, Enable_checks h r = None) rules →
  Forall (λ r, Enable.in_keyspace ks r = false) rules →
  Enable.loop ks h rules acc = (h, inr acc).
Proof.
  induction rules as [|r rest IH]; intros h acc Hpass Hout; [done|].
  apply Forall_cons in Hpass as [Hr Hpass].
  apply Forall_cons in Hout as [Ho Hout].
  rewrite loop_cons, Enable_body_eq, Hr, Ho. by apply IH.
Qed.

(** X6. When the validator accepts the input and no rule's [ID] matches the
    keyspace, the transformer outputs no rule and leaves every
    backing array as it was; this holds whatever the state of the store. *)
Theorem no_match_no_effect ks h rules :
  Check.main h rules
  = inr "check done, all rules has engine_role constraints" →
  Forall (λ r, Enable.in_keyspace ks r = false) rules →
  Enable.main ks h rules = (h, inr []).
Proof.
  unfold Check.main. destruct (Check.loop h rules) as [p|] eqn:Hl; [done|].
  intros _ Hout. apply loop_no_match; [|done].
  apply Check_loop_None in Hl. eapply Forall_impl; [exact Hl|].
  intros r. apply checks_None_iff.
Qed.

Lemma no_match_no_effect_witness :
  Enable.main "ks9" Sample.store3 Sample.rules3 = (Sample.store3, inr []).
Proof.
  apply (no_match_no_effect "ks9" Sample.store3 Sample.rules3).
  - reflexivity.
  - by_evaluation.
Defined.

(** X9. The transformer cannot be applied to its own output: run on a
    non-empty output of a previous run, for any keyspace, it panics on the
    group of the first rule, before any array is written. *)
Theorem Enable_on_own_output ks ks2 h rules h' out :
  Enable.main ks h rules = (h', inr out) →
  out ≠ [] →
  Enable.main ks2 h' out
  = (h', inl (Panic "got rule that are not tiflash group")).
Proof.
  intros Hl Hne. apply loop_shape in Hl as (outs & -> & HF & _). simpl in *.
  destruct HF as [|r r' l outs Hr _]; [done|].
  unfold Enable.main. rewrite loop_cons. unfold Enable.body.
  destruct (decide (GroupID r' ≠ "tiflash")) as [|Hn]; [done|].
  destruct Hn. by rewrite Hr.
Qed.

Lemma Enable_on_own_output_witness :
  Enable.main "ks2" Sample.store3' Sample.out3
  = (Sample.store3', inl (Panic "got rule that are not tiflash group")).
Proof.
  apply (Enable_on_own_output "ks1" "ks2" Sample.store3 Sample.rules3).
  - vm_compute. reflexivity.
  - discriminate.
Defined.

(** X10. The two patterns overlap across keyspaces: the first pattern of
    keyspace "id-<k>" is the second pattern of keyspace <k>, so a rule that
    names keyspace "id-<k>" through "keyspace-id-<k>-" is selected when the
    transformer is run for keyspace <k>. *)
Theorem keyspace_id_collision k r :
  Contains (ID r) (Enable.keyspacePrefix1 ("id-" +:+ k)) = true →
  Enable.in_keyspace k r = true.
Proof.
  intros Hc. unfold Enable.in_keyspace. apply orb_true_iff. right.
  exact Hc.
Qed.

Lemma keyspace_id_collision_witness :
  Enable.in_keyspace "ks1" Sample.rc = true.
Proof. apply (keyspace_id_collision "ks1" Sample.rc). reflexivity. Defined.

(** ** [append] and the arrays [Enable.rewrite] hands out *)

Lemma growcap_ge old needed : (needed ≤ growcap old needed)%nat.
Proof. unfold growcap. case_decide; lia. Qed.

Lemma elems_length h s : slice_ok h s → length (elems h s) = len s.
Proof.
  intros [Hlen Harr]. unfold elems, backing.
  destruct (ptr s) as [p|].
  - destruct Harr as (a & -> & Hl). simpl. rewrite length_take. lia.
  - simpl. rewrite length_take. simpl. lia.
Qed.

(** X13. [append], as the loop body uses it, returns a slice that reads as
    the elements of the old slice followed by the new element, whether it
    stored the element in place or moved the slice to a new array; it never
    changes an array other than the one the slice points to. *)
Theorem append_reads h s v h' s' :
  slice_ok h s →
  append h s v = (h', s') →
  elems h' s' = elems h s ++ [v]
  ∧ len s' = S (len s)
  ∧ slice_ok h' s'
  ∧ (∀ p a, h !! p = Some a → ptr s ≠ Some p → h' !! p = Some a).
Proof.
  intros Hok Happ. pose proof (elems_length _ _ Hok) as Hel.
  destruct Hok as [Hlen Harr].
  assert (Hgrow : growslice h s v = (h', s') →
    elems h' s' = elems h s ++ [v] ∧ len s' = S (len s) ∧ slice_ok h' s'
    ∧ (∀ p a, h !! p = Some a → ptr s ≠ Some p → h' !! p = Some a)).
  { unfold growslice. intros [= <- <-].
    pose proof (fresh_unallocated h) as Hq.
    pose proof (growcap_ge (cap s) (S (len s))) as Hc.
    split_and!.
    - unfold elems at 1, backing. simpl. rewrite lookup_insert_eq. simpl.
      rewrite (cons_middle v), app_assoc. apply take_app_length'.
      rewrite length_app, Hel. simpl. lia.
    - done.
    - split; simpl; [done|]. rewrite lookup_insert_eq. eexists; split; [done|].
      rewrite length_app, Hel. simpl. rewrite length_replicate. lia.
    - intros p a Ha _. rewrite lookup_insert_ne; [done|]. congruence. }
  unfold append in Happ. destruct (ptr s) as [p0|] eqn:Hp0; [|by apply Hgrow].
  destruct (decide (len s < cap s)%nat) as [Hlt|]; [|by apply Hgrow].
  injection Happ as <- <-. destruct Harr as (a0 & Ha0 & Hl0).
  assert (Hin : alter (λ a, <[len s:=v]> a) p0 h !! p0 = Some (<[len s:=v]> a0)).
  { by rewrite lookup_alter_eq, Ha0. }
  split_and!.
  - unfold elems, backing. simpl. rewrite Hin, Hp0, Ha0. simpl.
    rewrite (take_S_r _ _ v) by (apply list_lookup_insert_eq; lia).
    by rewrite take_insert_ge.
  - done.
  - split; simpl; [lia|]. rewrite Hin. eexists; split; [done|].
    by rewrite length_insert.
  - intros p a Ha Hne. rewrite lookup_alter_ne; [done|]. congruence.
Qed.

Lemma append_reads_witness :
  elems (alter (λ a, <[2%nat := Sample.inclusion]> a) 1%positive Sample.store3)
    {| ptr := Some 1%positive; len := 3; cap := 4 |}
  = elems Sample.store3 (LabelConstraints Sample.ra) ++ [Sample.inclusion].
Proof.
  apply (append_reads Sample.store3 (LabelConstraints Sample.ra)
           Sample.inclusion).
  - by_evaluation.
  - reflexivity.
Defined.

(** X8. [Enable.rewrite] allocates only when it must. If the rule's array
    has at least two cells, the output rule keeps that very array and
    capacity, with length 2, and no array is allocated; otherwise the output
    rule gets a newly allocated array of capacity 2. *)
Theorem rewrite_reuses_array h r h' r' :
  slice_ok h (LabelConstraints r) →
  Enable.rewrite h r = (h', r') →
  ((2 ≤ cap (LabelConstraints r))%nat →
     LabelConstraints r'
     = {| ptr := ptr (LabelConstraints r); len := 2;
          cap := cap (LabelConstraints r) |}
     ∧ dom h' = dom h)
  ∧ ((cap (LabelConstraints r) < 2)%nat →
     ∃ q, h !! q = None
          ∧ LabelConstraints r' = {| ptr := Some q; len := 2; cap := 2 |}).
Proof.
  intros [Hlen Harr]. unfold Enable.rewrite. simpl.
  destruct (LabelConstraints r) as [op l c] eqn:Hs. simpl in *.
  unfold reslice0. simpl.
  destruct (append h _ _) as [h1 s1] eqn:E1. simpl.
  destruct (append h1 _ _) as [h2 s2] eqn:E2. simpl.
  intros [= <- <-]. simpl.
  destruct c as [|[|c]].
  - split; [lia|]. intros _.
    rewrite append_grow in E1 by (simpl; lia).
    unfold growslice in E1. simpl in E1. rewrite growcap_0_1 in E1.
    injection E1 as <- <-.
    rewrite append_grow in E2 by (simpl; lia).
    unfold growslice in E2. simpl in E2. rewrite growcap_1_2 in E2.
    injection E2 as <- <-.
    eexists. split; [|done].
    pose proof (fresh_unallocated (<[fresh (dom h) := [Enable.wnConstraint]]> h)) as Hq.
    apply lookup_insert_None in Hq. tauto.
  - split; [lia|]. intros _.
    destruct op as [p0|]; [|lia]. destruct Harr as (a0 & Ha0 & Hl0).
    rewrite (append_in_place _ _ _ p0) in E1 by (simpl; done || lia).
    simpl in E1. injection E1 as <- <-.
    rewrite append_grow in E2 by (simpl; lia).
    unfold growslice in E2. simpl in E2. rewrite growcap_1_2 in E2.
    injection E2 as <- <-.
    eexists. split; [|done].
    pose proof (fresh_unallocated
      (alter (λ a, <[0%nat:=Enable.wnConstraint]> a) p0 h)) as Hq.
    by apply lookup_alter_None in Hq.
  - split; [|lia]. intros _.
    destruct op as [p0|]; [|lia]. destruct Harr as (a0 & Ha0 & Hl0).
    rewrite (append_in_place _ _ _ p0) in E1 by (simpl; done || lia).
    simpl in E1. injection E1 as <- <-.
    rewrite (append_in_place _ _ _ p0) in E2 by (simpl; done || lia).
    simpl in E2. injection E2 as <- <-.
    split; [done|]. by rewrite !dom_alter_L.
Qed.

Lemma rewrite_reuses_array_witness :
  LabelConstraints
    (derived Sample.ra {| ptr := Some 1%positive; len := 2; cap := 4 |})
  = {| ptr := ptr (LabelConstraints Sample.ra); len := 2;
       cap := cap (LabelConstraints Sample.ra) |}
  ∧ dom Sample.store3_partial = dom Sample.store3.
Proof.
  apply (rewrite_reuses_array Sample.store3 Sample.ra Sample.store3_partial
           (derived Sample.ra {| ptr := Some 1%positive; len := 2; cap := 4 |})).
  - by_evaluation.
  - vm_compute. reflexivity.
  - simpl. lia.
Defined.

(** ** What a run leaves in the store *)

Lemma decoded_app h (l1 l2 : Rules) :
  decoded h (l1 ++ l2) →
  decoded h l1 ∧ decoded h l2
  ∧ (∀ x p, x ∈ l2 → ptr (LabelConstraints x) = Some p →
       p ∉ omap (λ y, ptr (LabelConstraints y)) l1).
Proof.
  intros [Hall Hnd]. apply Forall_app in Hall as [H1 H2].
  rewrite omap_app in Hnd. apply NoDup_app in Hnd as (Hn1 & Hdisj & Hn2).
  split_and!; [done..|].
  intros x p Hx Hp Hin. eapply Hdisj; [exact Hin|]. by eapply ptr_elem_of.
Qed.

(** The loop on a concatenation is the loop on the first part followed, if
    that did not panic, by the loop on the second part from the store and
    the output the first part left. *)
Lemma loop_app ks l1 l2 : ∀ h acc,
  Enable.loop ks h (l1 ++ l2) acc =
  match Enable.loop ks h l1 acc with
  | (h1, inl p) => (h1, inl p)
  | (h1, inr acc1) => Enable.loop ks h1 l2 acc1
  end.
Proof.
  induction l1 as [|x l1 IH]; intros h acc; [done|].
  simpl app. rewrite !loop_cons.
  destruct (Enable.body ks h x) as [h1 [e|[x'|]]]; [done|..]; apply IH.
Qed.

Lemma elems_same (h h1 : store) s :
  (∀ p, ptr s = Some p → h1 !! p = h !! p) → elems h1 s = elems h s.
Proof.
  intros Hsame. unfold elems, backing. destruct (ptr s) as [p|]; [|done].
  by rewrite Hsame.
Qed.

(** X11. All-or-nothing holds for the output only, not for the store. When
    the transformer panics at the first failing rule of a decoded input, the
    arrays of the keyspace's rules before that rule have already been
    overwritten with the two new constraints; the constraints of the other
    rules before it, of the failing rule and of all rules after it read as
    decoded. *)
Theorem panic_after_partial_rewrite ks h l1 r l2 p :
  decoded h (l1 ++ r :: l2) →
  Forall (λ x, Enable_checks h x = None) l1 →
  Enable_checks h r = Some p →
  ∃ h', Enable.main ks h (l1 ++ r :: l2) = (h', inl p)
    ∧ (∀ x, x ∈ l1 → Enable.in_keyspace ks x = true →
         backing h' (LabelConstraints x)
         = take (length (backing h (LabelConstraints x)))
             [ {| Key := "engine_role"; Op := In; Values := ["write"] |};
               {| Key := "engine"; Op := In; Values := ["tiflash"] |} ]
           ++ drop 2 (backing h (LabelConstraints x)))
    ∧ (∀ x, x ∈ l1 → Enable.in_keyspace ks x = false →
         elems h' (LabelConstraints x) = elems h (LabelConstraints x))
    ∧ (∀ x, x ∈ r :: l2 →
         elems h' (LabelConstraints x) = elems h (LabelConstraints x)).
Proof.
  intros Hdec Hpass Hfail.
  destruct (decoded_app _ _ _ Hdec) as (Hd1 & Hd2 & Hdisj).
  destruct (loop_decoded_ok ks l1 h [] Hd1 Hpass) as (h1 & out1 & Hl1).
  destruct (loop_decoded _ _ _ _ _ _ Hd1 Hl1) as (_ & _ & _ & _ & Harr & Hfr).
  assert (Hlater : ∀ x, x ∈ r :: l2 →
            elems h1 (LabelConstraints x) = elems h (LabelConstraints x)).
  { intros x Hx. apply elems_same. intros q Hq.
    destruct Hd2 as [Hall _]. eapply Forall_forall in Hall; [|exact Hx].
    destruct Hall as [_ Hall]. rewrite Hq in Hall.
    destruct Hall as (a & Ha & _). rewrite Ha. apply Hfr; [done|].
    by eapply Hdisj. }
  exists h1. split_and!; [|..|done].
  - unfold Enable.main. rewrite loop_app, Hl1, loop_cons, Enable_body_eq.
    rewrite (checks_elems h1 h) by (apply Hlater; set_solver).
    by rewrite Hfail.
  - intros x Hx Hin. unfold backing.
    destruct (ptr (LabelConstraints x)) as [q|] eqn:Hq; [|done].
    destruct Hd1 as [Hall _]. eapply Forall_forall in Hall; [|exact Hx].
    destruct Hall as [_ Hall]. rewrite Hq in Hall.
    destruct Hall as (a & Ha & _).
    by rewrite (Harr _ _ _ Hx Hq Ha), Ha, Hin.
  - intros x Hx Hin. apply elems_same. intros q Hq.
    destruct Hd1 as [Hall _]. eapply Forall_forall in Hall; [|exact Hx].
    destruct Hall as [_ Hall]. rewrite Hq in Hall.
    destruct Hall as (a & Ha & _).
    by rewrite (Harr _ _ _ Hx Hq Ha), Ha, Hin.
Qed.

Lemma panic_after_partial_rewrite_witness :
  ∃ h', Enable.main "ks1" Sample.store3 ([Sample.ra] ++ Sample.r_bare :: [Sample.rc])
        = (h', inl (Panicf "rule should have engine_role constraints: %v"
                      Sample.r_bare))
    ∧ (∀ x, x ∈ [Sample.ra] → Enable.in_keyspace "ks1" x = true →
         backing h' (LabelConstraints x)
         = take (length (backing Sample.store3 (LabelConstraints x)))
             [ {| Key := "engine_role"; Op := In; Values := ["write"] |};
               {| Key := "engine"; Op := In; Values := ["tiflash"] |} ]
           ++ drop 2 (backing Sample.store3 (LabelConstraints x)))
    ∧ (∀ x, x ∈ [Sample.ra] → Enable.in_keyspace "ks1" x = false →
         elems h' (LabelConstraints x)
         = elems Sample.store3 (LabelConstraints x))
    ∧ (∀ x, x ∈ Sample.r_bare :: [Sample.rc] →
         elems h' (LabelConstraints x)
         = elems Sample.store3 (LabelConstraints x)).
Proof.
  apply (panic_after_partial_rewrite "ks1" Sample.store3
           [Sample.ra] Sample.r_bare [Sample.rc]).
  - by_evaluation.
  - by_evaluation.
  - reflexivity.
Defined.

Lemma checks_None_nonempty h r :
  Enable_checks h r = None → elems h (LabelConstraints r) ≠ [].
Proof.
  unfold Enable_checks. destruct (decide (GroupID r ≠ "tiflash")); [done|].
  intros Hc Hnil. by rewrite Hnil in Hc.
Qed.

Lemma overwritten_head x a :
  ∃ rest, overwritten (x :: a) = Enable.wnConstraint :: rest.
Proof.
  destruct a as [|y a]; [by exists [] |].
  rewrite overwritten_two. eauto.
Qed.

Lemma loop_decoded_after ks rules h acc h' res :
  decoded h rules →
  Enable.loop ks h rules acc = (h', res) →
  decoded h' rules.
Proof.
  intros Hdec Hl. pose proof (loop_keeps_arrays ks _ _ _ _ _ Hdec Hl) as Hk.
  destruct Hdec as [Hall Hnd]. split; [|done].
  eapply Forall_impl; [exact Hall|]. intros x. by apply slice_ok_step.
Qed.

(** X7. After a successful run that rewrote at least one rule, the input no
    longer passes the checks: read in the final store, the first rule of the
    keyspace begins with the new "engine_role" constraint, whose operator is
    "in", so both the validator and a second run of the transformer (for any
    keyspace) panic with "invalid rule" at that rule. *)
Theorem input_rejected_after_run ks ks2 h l1 r l2 h' out :
  decoded h (l1 ++ r :: l2) →
  Enable.main ks h (l1 ++ r :: l2) = (h', inr out) →
  Forall (λ x, Enable.in_keyspace ks x = false) l1 →
  Enable.in_keyspace ks r = true →
  Check.main h' (l1 ++ r :: l2) = inl (Panicf "invalid rule: %v" r)
  ∧ ∃ h2, Enable.main ks2 h' (l1 ++ r :: l2)
          = (h2, inl (Panicf "invalid rule: %v" r)).
Proof.
  intros Hdec Hl Hout Hin. unfold Enable.main in *.
  pose proof (loop_decoded_after _ _ _ _ _ _ Hdec Hl) as Hdec'.
  destruct (loop_decoded _ _ _ _ _ _ Hdec Hl) as (_ & _ & Hchk & _ & Harr & _).
  apply Forall_app in Hchk as [Hchk1 Hchkr].
  apply Forall_cons in Hchkr as [Hchkr _].
  assert (Hbefore : Forall (λ x, Enable_checks h' x = None) l1).
  { apply Forall_forall. intros x Hx.
    assert (Hxo : Enable.in_keyspace ks x = false)
      by by eapply Forall_forall in Hout.
    rewrite (checks_elems h' h); [by eapply Forall_forall in Hchk1|].
    apply elems_same. intros q Hq.
    assert (Hxin : x ∈ l1 ++ r :: l2) by set_solver.
    destruct Hdec as [Hall _]. eapply Forall_forall in Hall; [|exact Hxin].
    destruct Hall as [_ Hall]. rewrite Hq in Hall.
    destruct Hall as (a & Ha & _).
    by rewrite (Harr x q a Hxin Hq Ha), Ha, Hxo. }
  assert (Hnow : ∃ rest, elems h' (LabelConstraints r)
                         = Enable.wnConstraint :: rest).
  { pose proof (checks_None_nonempty _ _ Hchkr) as Hne.
    unfold elems, backing in *.
    destruct (ptr (LabelConstraints r)) as [q|] eqn:Hq; [|by destruct (len _)].
    destruct (h !! q) as [a|] eqn:Ha; [|by destruct (len _)].
    assert (Hrin : r ∈ l1 ++ r :: l2) by set_solver.
    rewrite (Harr r q a Hrin Hq Ha), Hin. simpl in *.
    destruct (len (LabelConstraints r)) as [|n]; [done|].
    destruct a as [|x a]; [done|].
    destruct (overwritten_head x a) as (rest & ->). simpl. eauto. }
  destruct Hnow as (rest & Hnow).
  assert (Hfail : Enable_checks h' r = Some (Panicf "invalid rule: %v" r)).
  { unfold Enable_checks. rewrite Hnow.
    destruct (decide (GroupID r ≠ "tiflash")) as [Hg|]; [|done].
    destruct Hg. by eapply checks_None_group. }
  split.
  - unfold Check.main. rewrite (Check_loop_panic h' l1 r l2 (Panicf "invalid rule: %v" r)); [done|..].
    + eapply Forall_impl; [exact Hbefore|]. intros x. apply checks_None_iff.
    + unfold Check.body. rewrite Hnow.
      destruct (decide (GroupID r ≠ "tiflash")) as [Hg|]; [|done].
      destruct Hg. by eapply checks_None_group.
  - by apply loop_decoded_panic.
Qed.

Lemma input_rejected_after_run_witness :
  Check.main Sample.store3' ([] ++ Sample.ra :: [Sample.rb; Sample.rc])
  = inl (Panicf "invalid rule: %v" Sample.ra)
  ∧ ∃ h2, Enable.main "ks2" Sample.store3' ([] ++ Sample.ra :: [Sample.rb; Sample.rc])
          = (h2, inl (Panicf "invalid rule: %v" Sample.ra)).
Proof.
  apply (input_rejected_after_run "ks1" "ks2" Sample.store3
           [] Sample.ra [Sample.rb; Sample.rc] Sample.store3' Sample.out3).
  - by_evaluation.
  - vm_compute. reflexivity.
  - by_evaluation.
  - reflexivity.
Defined.

Lemma NoDup_drop_mid {A} (l1 l2 l3 : list A) :
  NoDup (l1 ++ l2 ++ l3) → NoDup (l1 ++ l3).
Proof.
  rewrite !NoDup_app. intros (H1 & Hd & _ & _ & H3). split_and!; [done| |done].
  intros x Hx Hx3. apply (Hd x Hx). set_solver.
Qed.

Lemma NoDup_put_mid {A} (l1 l3 : list A) q :
  NoDup (l1 ++ l3) → q ∉ l1 → q ∉ l3 → NoDup (l1 ++ [q] ++ l3).
Proof.
  rewrite !NoDup_app. intros (H1 & Hd & H3) Hq1 Hq3. split_and!; [done|..].
  - intros x Hx Hx3. apply elem_of_app in Hx3 as [Hxq|Hx3].
    + apply list_elem_of_singleton in Hxq as ->. done.
    + by apply (Hd x).
  - apply NoDup_singleton.
  - intros x Hx. by apply list_elem_of_singleton in Hx as ->.
  - done.
Qed.

Lemma ptrs_split (acc : Rules) r rest :
  omap (λ x, ptr (LabelConstraints x)) (acc ++ r :: rest)
  = omap (λ x, ptr (LabelConstraints x)) acc
    ++ omap (λ x, ptr (LabelConstraints x)) [r]
    ++ omap (λ x, ptr (LabelConstraints x)) rest.
Proof. by rewrite (cons_middle r), !omap_app. Qed.

Lemma ptrs_allocated h (l : Rules) p :
  Forall (λ r, slice_ok h (LabelConstraints r)) l →
  p ∈ omap (λ x, ptr (LabelConstraints x)) l → is_Some (h !! p).
Proof.
  intros Hall Hp. apply list_elem_of_omap in Hp as (x & Hx & Hpx).
  eapply Forall_forall in Hall; [|exact Hx].
  destruct Hall as [_ Hall]. rewrite Hpx in Hall.
  destruct Hall as (a & -> & _). eauto.
Qed.

(** The loop keeps its output and the rules still to be processed decoded
    together: valid slices, no array shared between any two of them. *)
Lemma loop_out_decoded ks rules : ∀ h acc h' out,
  decoded h (acc ++ rules) →
  Enable.loop ks h rules acc = (h', inr out) →
  decoded h' out.
Proof.
  induction rules as [|r rest IH]; intros h acc h' out Hdec.
  - rewrite app_nil_r in Hdec. by intros [= <- <-].
  - rewrite loop_cons. destruct (Enable.body ks h r) as [h1 o] eqn:Hb.
    destruct Hdec as [Hall Hnd].
    assert (Hok : slice_ok h (LabelConstraints r)).
    { apply Forall_app in Hall as [_ Hall]. by apply Forall_cons in Hall as [? _]. }
    pose proof (body_keeps_arrays _ _ _ _ _ Hok Hb) as Hkeep.
    assert (Hall1 : Forall (λ x, slice_ok h1 (LabelConstraints x))
                      (acc ++ r :: rest)).
    { eapply Forall_impl; [exact Hall|]. intros x. by apply slice_ok_step. }
    rewrite ptrs_split in Hnd.
    apply body_cases in Hb. destruct o as [e|[r'|]]; [done|..].
    + destruct Hb as (_ & _ & Hrw).
      destruct (rewrite_store _ _ _ _ Hok Hrw) as (_ & Hok' & Hptr & _).
      apply IH. split.
      * rewrite (cons_middle r) in Hall1.
        apply Forall_app in Hall1 as [Ha Hall1].
        apply Forall_app in Hall1 as [_ Hr].
        rewrite !Forall_app. split_and!; [done| |done]. by constructor.
      * rewrite <- app_assoc. simpl app. rewrite ptrs_split.
        destruct Hptr as [Hptr | (q & Hq & Hnone)].
        { simpl omap at 2. simpl omap in Hnd at 2. by rewrite Hptr. }
        simpl omap at 2. rewrite Hq. simpl.
        apply NoDup_put_mid.
        -- by eapply NoDup_drop_mid.
        -- intros Hin. apply (ptrs_allocated h) in Hin as [? ?]; [congruence|].
           by apply Forall_app in Hall as [? _].
        -- intros Hin. apply (ptrs_allocated h) in Hin as [? ?]; [congruence|].
           apply Forall_app in Hall as [_ Hall].
           by apply Forall_cons in Hall as [_ ?].
    + destruct Hb as (_ & _ & ->). apply IH. split.
      * rewrite (cons_middle r) in Hall.
        apply Forall_app in Hall as [Ha Hall].
        apply Forall_app in Hall as [_ Hr].
        by apply Forall_app.
      * rewrite omap_app. by eapply NoDup_drop_mid.
Qed.

(** X12. On decoded input, the output of a successful run is itself in the
    decoded state with respect to the final store: every output rule's
    [LabelConstraints] is a valid slice of an allocated array, and no two
    output rules share an array, so the two constraints written for one
    output rule are never overwritten on behalf of another. *)
Theorem output_decoded ks h rules h' out :
  decoded h rules →
  Enable.main ks h rules = (h', inr out) →
  decoded h' out.
Proof. intros Hdec Hl. by eapply (loop_out_decoded ks rules h []). Qed.

Lemma output_decoded_witness : decoded Sample.store3' Sample.out3.
Proof.
  apply (output_decoded "ks1" Sample.store3 Sample.rules3).
  - by_evaluation.
  - vm_compute. reflexivity.
Defined.

Lemma loop_acc ks rules : ∀ h acc,
  Enable.loop ks h rules acc =
  match Enable.loop ks h rules [] with
  | (h', inl p) => (h', inl p)
  | (h', inr out) => (h', inr (acc ++ out))
  end.
Proof.
  induction rules as [|r rest IH]; intros h acc.
  - simpl. by rewrite app_nil_r.
  - rewrite !loop_cons.
    destruct (Enable.body ks h r) as [h1 [e|[r'|]]]; [done|..].
    + rewrite (IH h1 (acc ++ [r'])), (IH h1 ([] ++ [r'])).
      destruct (Enable.loop ks h1 rest []) as [h2 [e|out]]; [done|].
      by rewrite <- app_assoc.
    + apply IH.
Qed.

(** X14. The transformer composes over concatenation: a run on [l1 ++ l2]
    is a run on [l1] followed, unless that panicked, by a run on [l2] in
    the store the first run left; the outputs are concatenated, and a panic
    of the second run discards the output of the first. *)
Theorem Enable_main_app ks h l1 l2 :
  Enable.main ks h (l1 ++ l2) =
  match Enable.main ks h l1 with
  | (h1, inl p) => (h1, inl p)
  | (h1, inr out1) =>
      match Enable.main ks h1 l2 with
      | (h2, inl p) => (h2, inl p)
      | (h2, inr out2) => (h2, inr (out1 ++ out2))
      end
  end.
Proof.
  unfold Enable.main. rewrite loop_app.
  destruct (Enable.loop ks h l1 []) as [h1 [e|out1]]; [done|].
  apply loop_acc.
Qed.
